(** * rtlamr: the rtl-sdr receive loop (recv-sdr.go)

    A shallow embedding of [Receiver.NewReceiver], [Receiver.Run] and [main]
    of recv-sdr.go.  The program talks to a dongle, a decoder, a log encoder
    and two files; each such call is recorded as an [Event] of a trace, and
    every answer the outside world gives (a pending signal, a failed read,
    the packets decoded from a block, ...) is read from an explicit
    environment record.  [log.Fatal] prints and calls [os.Exit(1)]: the
    process stops at once and no deferred function runs. *)

From Stdlib Require Import ZArith List Bool String Lia.
From stdpp Require Import gmap strings list fin_maps.
Import ListNotations.

Local Open Scope string_scope.
Local Open Scope Z_scope.
Local Open Scope list_scope.

(** ** Machine integers

    Go's [int] and [int64] on a 64-bit platform: two's complement, silent
    wrap-around. *)

Definition wrap_int (z : Z) : Z := (z + 2 ^ 63) mod 2 ^ 64 - 2 ^ 63.

(** [x << 1] on an [int]. *)
Definition shl1 (x : Z) : Z := wrap_int (Z.shiftl x 1).

(** ** Data *)

(** What the loop uses of a [parse.Message]: the values of its methods. *)
Record DecodedMessage := {
  MeterID : N;       (* uint32 *)
  MeterType : N;     (* uint8 *)
  Body : string
}.

(** [parse.LogMessage]. *)
Record LogMessage := {
  Time : Z;
  Offset : Z;
  Length : Z;
  Message : DecodedMessage
}.

(** [meterID.UintMap], a [map[uint]bool]. *)
Abbreviation UintMap := (gmap N bool).

(** The fields of [rcvr.p.Cfg()] that recv-sdr.go reads. *)
Record Config := {
  CenterFreq : Z;
  SampleRate : Z;
  BlockSize2 : Z;
  BufferLength : Z
}.

(** The dynamic type behind the [encoder] interface value.  The source only
    ever asks whether it is [*xml.Encoder]. *)
Inductive EncoderType :=
| XmlEncoder
| OtherEncoder (name : string).

(** Modelled from the spec: the capability flag [needsRecordSeparator] that
    sections 6 and 9 of the specification attribute to the log sink.  The
    source declares no such capability; the field is carried along with the
    encoder so that statements about it can be written, and nothing in [Run]
    reads it. *)
Record Encoder := {
  enc_type : EncoderType;
  needsRecordSeparator : bool
}.

Definition isXml (e : Encoder) : bool :=
  match enc_type e with XmlEncoder => true | OtherEncoder _ => false end.

(** The command-line flags dereferenced in recv-sdr.go. *)
Record Flags := {
  version : bool;
  quiet : bool;
  single : bool;
  timeLimit : Z;
  sampleFilename : string
}.

(** [os.DevNull] on a Unix system. *)
Definition DevNull : string := "/dev/null".

(** ** Observable operations *)

Inductive Event :=
| EvHandleFlags
| EvNewParser
| EvOpen                              (* rtlsdr.Open(0) *)
| EvSetCenterFreq (hz : Z)
| EvSetSampleRate (hz : Z)
| EvSetTunerGainMode (manual : bool)
| EvParserLog
| EvResetBuffer
| EvNotify                            (* signal.Notify *)
| EvReadAsync                         (* go rcvr.ReadAsync(...) *)
| EvReadFull                          (* io.ReadFull(in, block) *)
| EvSeek (pos : Z)                    (* sampleFile.Seek(0, SEEK_CUR) *)
| EvEncode (m : LogMessage)           (* encoder.Encode(msg) *)
| EvNewline                           (* fmt.Fprintln(logFile) *)
| EvSampleWrite (iq : list N)         (* sampleFile.Write(Dec().IQ) *)
| EvPrintln (s : string)
| EvPipeClose                         (* in.Close(); out.Close() *)
| EvLogClose
| EvSampleClose
| EvCancelAsync (failed : bool)       (* the call has returned *)
| EvClose                             (* rcvr.Close() *)
| EvFatal (s : string)                (* log.Fatal: print, os.Exit(1) *)
| EvExit (code : Z).

Abbreviation Trace := (list Event).

(** ** The environment *)

(** Answers given while one packet of a block is handled. *)
Record PktEnv := {
  pkt : DecodedMessage;
  now : Z;                  (* time.Now() *)
  encodeFails : bool        (* encoder.Encode returns an error *)
}.

(** Answers given during one turn of the [for] loop of [Run]. *)
Record IterEnv := {
  sigintReady : bool;       (* a signal is waiting on [sigint] *)
  timerFired : bool;        (* time.After has delivered *)
  pickSigint : bool;        (* select's choice when both are ready *)
  readFails : bool;         (* io.ReadFull returns an error *)
  pkts : list PktEnv;       (* rcvr.p.Parse(rcvr.p.Dec().Decode(block)) *)
  IQ : list N;              (* rcvr.p.Dec().IQ after the decode *)
  writeFails : bool         (* sampleFile.Write returns an error *)
}.

(** ** Filters

    [parse.FilterChain], [NewUniqueFilter], [meterID] and [meterType] are
    declared outside recv-sdr.go.  A filter is taken as a function: it owns
    private state of type [FS], may read the identifier map that [Run]
    shares with it, and answers yes or no. *)

Section Filters.
Context {FS : Type}.

Definition Filter := FS -> UintMap -> DecodedMessage -> bool * FS.

(** Modelled from the spec: [FilterChain.Match] of package parse, which is
    not among the sources.  Section 4.3: the filters are asked in
    registration order, the first rejection ends the walk, an empty chain
    accepts. *)
Fixpoint Match (fc : list Filter) (fs : FS) (ids : UintMap)
    (m : DecodedMessage) : bool * FS :=
  match fc with
  | [] => (true, fs)
  | f :: fc' =>
      let '(ok, fs') := f fs ids m in
      if ok then Match fc' fs' ids m else (false, fs')
  end.
End Filters.

Arguments Filter : clear implicits.

(** ** The state [Run] mutates

    The private state of the filters, the identifier map [meterID.UintMap]
    (shared with the identifier filter, and emptied in single mode), and the
    write position of [sampleFile]. *)

Record RunState (FS : Type) := mkRunState {
  fcState : FS;
  meterID : UintMap;
  samplePos : Z
}.

Arguments mkRunState {FS}.
Arguments fcState {FS}.
Arguments meterID {FS}.
Arguments samplePos {FS}.

(** How the body of [for _, pkt := range ...] is left. *)
Inductive PktCtl := PktNext | PktBreak | PktFatal.

(** How one turn of the outer [for] is left. *)
Inductive IterCtl := Continue | Return | Abort.

(** Why [Run] came back, or that it did not. *)
Inductive RunEnd :=
| Interrupted          (* case <-sigint: return *)
| TimeLimitReached     (* case <-tLimit: return *)
| Completed            (* single mode, identifier map empty: return *)
| Died                 (* log.Fatal inside the loop *)
| StillRunning.        (* the environment described no further turn *)

Inductive Selected := SelSigint | SelTLimit | SelDefault.

Section Run.
Context {FS : Type}.
Variable flags : Flags.
Variable cfg : Config.             (* rcvr.p.Cfg() *)
Variable fc : list (Filter FS).    (* rcvr.fc *)
Variable encoder : Encoder.

(** Lines 145-149: the record built for a packet accepted in state [st].
    [sampleFile.Seek(0, SEEK_CUR)] reports the current write position; the
    error it may return is discarded by the source and the seek is taken to
    succeed. *)
Definition recordFor (st : RunState FS) (e : PktEnv) : LogMessage :=
  {| Time := now e;
     Offset := samplePos st;
     Length := shl1 (BufferLength cfg);
     Message := pkt e |}.

(** Lines 147-160: what a successful pass through the logging statements
    does: the seek, the encode, and a newline for the XML encoder. *)
Definition logTrace (st : RunState FS) (e : PktEnv) : Trace :=
  [EvSeek (samplePos st); EvEncode (recordFor st e)]
    ++ (if isXml encoder then [EvNewline] else []).

(** Lines 141-169: the body of the loop over the parsed packets. *)
Definition handlePkt (st : RunState FS) (pktFound : bool) (e : PktEnv)
    : Trace * RunState FS * bool * PktCtl :=
  let '(ok, fs') := Match fc (fcState st) (meterID st) (pkt e) in
  let st1 := mkRunState fs' (meterID st) (samplePos st) in
  if negb ok then ([], st1, pktFound, PktNext)
  else if encodeFails e then
    ([EvSeek (samplePos st); EvEncode (recordFor st e);
      EvFatal "Error encoding message: "], st1, pktFound, PktFatal)
  else if single flags then
    if (size (meterID st) =? 0)%nat then (logTrace st e, st1, true, PktBreak)
    else
      (logTrace st e,
       mkRunState fs' (delete (MeterID (pkt e)) (meterID st)) (samplePos st),
       true, PktNext)
  else (logTrace st e, st1, true, PktNext).

(** Lines 140-170: [for _, pkt := range rcvr.p.Parse(indices)]. *)
Fixpoint rangePkts (st : RunState FS) (pktFound : bool) (l : list PktEnv)
    : Trace * RunState FS * bool * PktCtl :=
  match l with
  | [] => ([], st, pktFound, PktNext)
  | e :: l' =>
      let '(tr, st1, found1, ctl) := handlePkt st pktFound e in
      match ctl with
      | PktNext =>
          let '(tr', st2, found2, ctl') := rangePkts st1 found1 l' in
          (tr ++ tr', st2, found2, ctl')
      | _ => (tr, st1, found1, ctl)
      end
  end.

(** Line 173: [*sampleFilename != os.DevNull]. *)
Definition archiving : bool :=
  negb (String.eqb (sampleFilename flags) DevNull).

(** Lines 172-182: what follows the packet loop. *)
Definition afterPkts (st : RunState FS) (pktFound : bool) (it : IterEnv)
    : Trace * RunState FS * IterCtl :=
  if pktFound then
    if archiving then
      if writeFails it then
        ([EvSampleWrite (IQ it);
          EvFatal "Error writing raw samples to file:"], st, Abort)
      else
        let st1 := mkRunState (fcState st) (meterID st)
                     (wrap_int (samplePos st + Z.of_nat (length (IQ it)))) in
        ([EvSampleWrite (IQ it)], st1,
         if single flags && (size (meterID st) =? 0)%nat
         then Return else Continue)
    else
      ([], st,
       if single flags && (size (meterID st) =? 0)%nat
       then Return else Continue)
  else ([], st, Continue).

(** Lines 131-182: the [default] case of the [select]. *)
Definition receive (st : RunState FS) (it : IterEnv)
    : Trace * RunState FS * IterCtl :=
  if readFails it then
    ([EvReadFull; EvFatal "Error reading samples: "], st, Abort)
  else
    let '(tr, st1, pktFound, ctl) := rangePkts st false (pkts it) in
    match ctl with
    | PktFatal => (EvReadFull :: tr, st1, Abort)
    | _ =>
        let '(tr', st2, c) := afterPkts st1 pktFound it in
        (EvReadFull :: tr ++ tr', st2, c)
    end.

(** Lines 124-130: which case the [select] takes.  [tLimit] can only
    deliver when a time limit was set; with both channels ready the
    runtime picks either. *)
Definition select (it : IterEnv) : Selected :=
  let tl := negb (timeLimit flags =? 0) && timerFired it in
  match sigintReady it, tl with
  | true, true => if pickSigint it then SelSigint else SelTLimit
  | true, false => SelSigint
  | false, true => SelTLimit
  | false, false => SelDefault
  end.

(** Lines 122-184: the [for] loop, one element of [its] per turn. *)
Fixpoint loop (st : RunState FS) (its : list IterEnv)
    : Trace * RunState FS * RunEnd :=
  match its with
  | [] => ([], st, StillRunning)
  | it :: its' =>
      match select it with
      | SelSigint => ([], st, Interrupted)
      | SelTLimit => ([EvPrintln "Time Limit Reached:"], st, TimeLimitReached)
      | SelDefault =>
          let '(tr, st1, c) := receive st it in
          match c with
          | Continue =>
              let '(tr', st2, e) := loop st1 its' in (tr ++ tr', st2, e)
          | Return => (tr, st1, Completed)
          | Abort => (tr, st1, Died)
          end
      end
  end.

(** [Run] returned, so its deferred function ran. *)
Definition returned (e : RunEnd) : bool :=
  match e with
  | Interrupted | TimeLimitReached | Completed => true
  | Died | StillRunning => false
  end.

(** Lines 95-185: [Receiver.Run].  The pipe between the callback of
    [ReadAsync] and [io.ReadFull] is seen from the reading end only: what a
    read yields is [readFails] and the packets decoded from the block.  The
    deferred closing of the pipe runs when the function returns, not when
    [log.Fatal] ends the process. *)
Definition Run (st : RunState FS) (its : list IterEnv)
    : Trace * RunState FS * RunEnd :=
  let '(tr, st1, e) := loop st its in
  ([EvNotify; EvReadAsync] ++ tr
     ++ (if returned e then [EvPipeClose] else []),
   st1, e).

(** The state in which the loop starts its [k]-th turn (from 0), if it
    gets that far. *)
Fixpoint stateAt (st : RunState FS) (its : list IterEnv) (k : nat)
    : option (RunState FS) :=
  match k with
  | O => Some st
  | S k' =>
      match its with
      | [] => None
      | it :: its' =>
          match select it with
          | SelDefault =>
              let '(_, st1, c) := receive st it in
              match c with
              | Continue => stateAt st1 its' k'
              | _ => None
              end
          | _ => None
          end
      end
  end.
(** The messages of a block that get a log record, as a plain list
    function: every candidate goes through the chain in order; in single
    mode an accepted message takes its identifier out of the map, unless
    the map is empty already, in which case the walk ends there. *)
Fixpoint accepted (fs : FS) (ids : UintMap) (l : list PktEnv)
    : list DecodedMessage :=
  match l with
  | [] => []
  | e :: l' =>
      let '(ok, fs') := Match fc fs ids (pkt e) in
      if ok then
        pkt e ::
          (if single flags then
             if (size ids =? 0)%nat then []
             else accepted fs' (delete (MeterID (pkt e)) ids) l'
           else accepted fs' ids l')
      else accepted fs' ids l'
  end.

(** The reading of the specification: every candidate of the block is put
    through the chain, and each one that passes is logged; in single mode
    an accepted message takes its identifier out of the map.  No candidate
    is skipped. *)
Fixpoint passing (fs : FS) (ids : UintMap) (l : list PktEnv)
    : list DecodedMessage :=
  match l with
  | [] => []
  | e :: l' =>
      let '(ok, fs') := Match fc fs ids (pkt e) in
      if ok then
        pkt e ::
          passing fs'
            (if single flags then delete (MeterID (pkt e)) ids else ids) l'
      else passing fs' ids l'
  end.
End Run.

(** ** Startup and [main] *)

(** What the outside world answers during startup and shutdown. *)
Record StartEnv := {
  visited : list string;            (* the flags flag.Visit walks through *)
  newParser : string + Config;      (* parse.NewParser: error or parser *)
  openErr : option string;          (* rtlsdr.Open(0) *)
  centerFreqErr : option string;    (* SetCenterFreq *)
  sampleRateErr : option string;    (* SetSampleRate *)
  gainModeErr : option string;      (* SetTunerGainMode *)
  cancelErr : option string         (* CancelAsync *)
}.

(** Modelled from the spec: [HandleFlags] is called by [main] and defined
    outside recv-sdr.go.  Sections 4.5 and 7: single-observation mode asked
    for with no identifier set configured is a configuration error, raised
    at startup.  What else [HandleFlags] sets up ([logFile], [sampleFile],
    [encoder]) is given to [main] as its initial state. *)
Definition HandleFlags (flags : Flags) (ids : UintMap) : Trace * bool :=
  if single flags && (size ids =? 0)%nat
  then ([EvHandleFlags; EvFatal "single requires filterid"], false)
  else ([EvHandleFlags], true).

Section Main.
Context {FS : Type}.
(** [NewUniqueFilter()], [meterID] and [meterType] as filters. *)
Variables uniqueFilter meterIDFilter meterTypeFilter : Filter FS.
Variables buildDate commitHash : string.

(** Lines 63-74: the function handed to [flag.Visit]. *)
Definition visitFlag (acc : bool * list (Filter FS)) (name : string)
    : bool * list (Filter FS) :=
  let '(gainFlagSet, fc) := acc in
  if String.eqb name "gainbyindex" || String.eqb name "tunergainmode"
     || String.eqb name "tunergain" || String.eqb name "agcmode"
  then (true, fc)
  else if String.eqb name "unique" then (gainFlagSet, fc ++ [uniqueFilter])
  else if String.eqb name "filterid" then (gainFlagSet, fc ++ [meterIDFilter])
  else if String.eqb name "filtertype"
  then (gainFlagSet, fc ++ [meterTypeFilter])
  else acc.

(** Lines 49-93: [Receiver.NewReceiver].  [None]: [log.Fatal] was hit. *)
Definition NewReceiver (flags : Flags) (env : StartEnv)
    : Trace * option (Config * list (Filter FS)) :=
  match newParser env with
  | inl err => ([EvNewParser; EvFatal err], None)
  | inr cfg =>
      match openErr env with
      | Some err => ([EvNewParser; EvOpen; EvFatal err], None)
      | None =>
          let '(gainFlagSet, fc) :=
            fold_left visitFlag (visited env) (false, []) in
          let tr1 := [EvNewParser; EvOpen; EvSetCenterFreq (CenterFreq cfg)] in
          match centerFreqErr env with
          | Some err => (tr1 ++ [EvFatal err], None)
          | None =>
              let tr2 := tr1 ++ [EvSetSampleRate (SampleRate cfg)] in
              match sampleRateErr env with
              | Some err => (tr2 ++ [EvFatal err], None)
              | None =>
                  let tr3 := tr2 ++ [EvSetTunerGainMode gainFlagSet] in
                  match gainModeErr env with
                  | Some err => (tr3 ++ [EvFatal err], None)
                  | None =>
                      (tr3 ++ (if quiet flags then [] else [EvParserLog])
                           ++ [EvResetBuffer],
                       Some (cfg, fc))
                  end
              end
          end
      end
  end.

(** Lines 216-228: the function [main] defers. *)
Definition shutdown (env : StartEnv) : Trace * Z :=
  match cancelErr env with
  | Some err =>
      ([EvLogClose; EvSampleClose; EvPrintln "Cancelling...";
        EvCancelAsync true; EvFatal err], 1)
  | None =>
      ([EvLogClose; EvSampleClose; EvPrintln "Cancelling...";
        EvCancelAsync false; EvPrintln "Closing..."; EvClose; EvExit 0], 0)
  end.

(** Lines 200-210: the [-version] branch. *)
Definition printVersion : Trace :=
  if String.eqb buildDate "" || String.eqb commitHash "" then
    [EvPrintln "Built from source."; EvPrintln "Build Date: Unknown";
     EvPrintln "Commit:     Unknown"; EvExit 0]
  else
    [EvPrintln ("Build Date: " ++ buildDate)%string;
     EvPrintln ("Commit:     " ++ commitHash)%string; EvExit 0].

(** Lines 196-231: [main].  [RegisterFlags] and [flag.Parse] yield [flags]
    and the list [visited env]; the state [HandleFlags] leaves behind (the
    identifier map, the open files, the encoder) is [st] and [encoder].  The
    result is the trace and the exit status, [None] while the loop is still
    running. *)
Definition main (flags : Flags) (encoder : Encoder) (env : StartEnv)
    (st : RunState FS) (its : list IterEnv) : Trace * option Z :=
  if version flags then (printVersion, Some 0)
  else
    let '(tr0, ok) := HandleFlags flags (meterID st) in
    if negb ok then (tr0, Some 1)
    else
      match NewReceiver flags env with
      | (tr1, None) => (tr0 ++ tr1, Some 1)
      | (tr1, Some (cfg, fc)) =>
          let '(tr2, st', e) := Run flags cfg fc encoder st its in
          match e with
          | StillRunning => (tr0 ++ tr1 ++ tr2, None)
          | Died => (tr0 ++ tr1 ++ tr2, Some 1)
          | _ =>
              let '(tr3, code) := shutdown env in
              (tr0 ++ tr1 ++ tr2 ++ tr3, Some code)
          end
      end.
End Main.

(** ** Concrete filters

    Used to run the model on examples. *)

Global Instance DecodedMessage_eq_dec : EqDecision DecodedMessage.
Proof. solve_decision. Defined.

Record FilterStore := mkFilterStore {
  seen : list DecodedMessage;     (* history of the unique filter *)
  types : UintMap                 (* the set behind [meterType] *)
}.

(** Modelled from the spec: [UniqueFilter], section 4.4.  A message equal to
    one accepted before is rejected; any other is recorded and accepted. *)
Definition UniqueFilter : Filter FilterStore := fun fs _ m =>
  if bool_decide (m ∈ seen fs) then (false, fs)
  else (true, mkFilterStore (m :: seen fs) (types fs)).

(** Modelled from the spec: [MeterIDFilter], section 4.4.  Accepts when the
    identifier is in the set, or when the set is empty. *)
Definition MeterIDFilter : Filter FilterStore := fun fs ids m =>
  (bool_decide (is_Some (ids !! MeterID m)) || (size ids =? 0)%nat, fs).

(** Modelled from the spec: [MeterTypeFilter], section 4.4.  The same on the
    type tag. *)
Definition MeterTypeFilter : Filter FilterStore := fun fs _ m =>
  (bool_decide (is_Some (types fs !! MeterType m))
     || (size (types fs) =? 0)%nat, fs).

(** ** Example data *)

Definition withPkts (it : IterEnv) (l : list PktEnv) : IterEnv :=
  {| sigintReady := sigintReady it; timerFired := timerFired it;
     pickSigint := pickSigint it; readFails := readFails it;
     pkts := l; IQ := IQ it; writeFails := writeFails it |}.

Definition exFlags (one : bool) : Flags :=
  {| version := false; quiet := true; single := one; timeLimit := 0;
     sampleFilename := "samples.bin" |}.

Definition exCfg : Config :=
  {| CenterFreq := 912600155; SampleRate := 2359296;
     BlockSize2 := 8192; BufferLength := 6144 |}.

Definition exMsg (id : N) : DecodedMessage :=
  {| MeterID := id; MeterType := 7; Body := "scm" |}.

Definition exPkt (id : N) : PktEnv :=
  {| pkt := exMsg id; now := 1700000000; encodeFails := false |}.

Definition exStore : FilterStore := mkFilterStore [] ∅.

(** A run state whose identifier map holds 42 alone. *)
Definition exState : RunState FilterStore :=
  mkRunState exStore {[ 42%N := true ]} 0.

Definition exPlain : Encoder :=
  {| enc_type := OtherEncoder "plain"; needsRecordSeparator := false |}.

(** An encoder that is not the XML one and asks for a separator. *)
Definition exFramed : Encoder :=
  {| enc_type := OtherEncoder "framed"; needsRecordSeparator := true |}.

(** A turn of the loop with nothing pending and no failure. *)
Definition exBlock (l : list PktEnv) : IterEnv :=
  {| sigintReady := false; timerFired := false; pickSigint := false;
     readFails := false; pkts := l; IQ := [127%N; 128%N; 126%N; 129%N];
     writeFails := false |}.

Definition exInterrupt : IterEnv :=
  {| sigintReady := true; timerFired := false; pickSigint := false;
     readFails := false; pkts := []; IQ := []; writeFails := false |}.

Definition exShortRead : IterEnv :=
  {| sigintReady := false; timerFired := false; pickSigint := false;
     readFails := true; pkts := []; IQ := []; writeFails := false |}.

(** Three turns: a foreign meter, then a block with 42, 43 and 44, then one
    that single mode never gets to. *)
Definition exTurns : list IterEnv :=
  [exBlock [exPkt 43]; exBlock [exPkt 42; exPkt 43; exPkt 44];
   exBlock [exPkt 42]].

(** A run state whose identifier map is empty. *)
Definition exNoIds : RunState FilterStore := mkRunState exStore ∅ 0.

(** The dongle refuses to cancel. *)
Definition exCancelFails : StartEnv :=
  {| visited := []; newParser := inr exCfg;
     openErr := None; centerFreqErr := None; sampleRateErr := None;
     gainModeErr := None; cancelErr := Some "cancel failed" |}.

Definition exStart : StartEnv :=
  {| visited := ["filterid"; "single"]; newParser := inr exCfg;
     openErr := None; centerFreqErr := None; sampleRateErr := None;
     gainModeErr := None; cancelErr := None |}.

(** ** Reading a trace *)

(** The records handed to [encoder.Encode], in order. *)
Fixpoint logged (tr : Trace) : list LogMessage :=
  match tr with
  | [] => []
  | EvEncode m :: tr' => m :: logged tr'
  | _ :: tr' => logged tr'
  end.

(** The byte windows handed to [sampleFile.Write], in order. *)
Fixpoint archiveWrites (tr : Trace) : list (list N) :=
  match tr with
  | [] => []
  | EvSampleWrite iq :: tr' => iq :: archiveWrites tr'
  | _ :: tr' => archiveWrites tr'
  end.

(** The positions [sampleFile.Seek] reported, in order. *)
Fixpoint seeks (tr : Trace) : list Z :=
  match tr with
  | [] => []
  | EvSeek p :: tr' => p :: seeks tr'
  | _ :: tr' => seeks tr'
  end.

(** The events after the first write to the sample file. *)
Fixpoint afterFirstWrite (tr : Trace) : Trace :=
  match tr with
  | [] => []
  | EvSampleWrite _ :: tr' => tr'
  | _ :: tr' => afterFirstWrite tr'
  end.

(** The events the packet loop can produce. *)
Definition pktEvent (e : Event) : bool :=
  match e with
  | EvSeek _ | EvEncode _ | EvNewline | EvFatal _ => true
  | _ => false
  end.

(** The events the receive loop can produce. *)
Definition loopEvent (e : Event) : bool :=
  match e with
  | EvReadFull | EvSampleWrite _ | EvPrintln _ => true
  | _ => pktEvent e
  end.

(** The events of the shutdown sequence. *)
Definition shutdownEvent (e : Event) : bool :=
  match e with
  | EvLogClose | EvSampleClose | EvCancelAsync _ | EvClose => true
  | _ => false
  end.

(** Any event outside the shutdown sequence. *)
Definition quietEvent (e : Event) : bool := negb (shutdownEvent e).

(** The two ways the deferred function of [main] can go. *)
Definition shutdownDone : Trace :=
  [EvLogClose; EvSampleClose; EvPrintln "Cancelling..."; EvCancelAsync false;
   EvPrintln "Closing..."; EvClose; EvExit 0].

Definition shutdownCancelFailed (err : string) : Trace :=
  [EvLogClose; EvSampleClose; EvPrintln "Cancelling..."; EvCancelAsync true;
   EvFatal err].

(** The events that touch the dongle or start the loop. *)
Definition hardwareEvent (e : Event) : bool :=
  match e with
  | EvOpen | EvSetCenterFreq _ | EvSetSampleRate _ | EvSetTunerGainMode _
  | EvResetBuffer | EvReadAsync | EvReadFull | EvCancelAsync _ | EvClose => true
  | _ => false
  end.

(** Every [EvEncode] is followed by what the encoder type asks for: a
    newline when [sep] is set, none otherwise; a newline appears nowhere
    else.  An [EvFatal] right after an [EvEncode] is a failed encode, after
    which nothing is written. *)
Fixpoint sepAfterEach (sep : bool) (tr : Trace) : bool :=
  match tr with
  | [] => true
  | EvEncode _ :: rest =>
      match rest with
      | EvNewline :: rest' => sep && sepAfterEach sep rest'
      | EvFatal _ :: _ => true
      | _ => negb sep && sepAfterEach sep rest
      end
  | EvNewline :: _ => false
  | _ :: rest => sepAfterEach sep rest
  end.

(** The trace does not open with a newline or a fatal error. *)
Definition startsClean (tr : Trace) : bool :=
  match tr with
  | EvNewline :: _ | EvFatal _ :: _ => false
  | _ => true
  end.

(** ** Further readings of a trace *)

(** The identifiers of the messages handed to the encoder, in order. *)
Definition loggedIDs (tr : Trace) : list N :=
  map (fun m => MeterID (Message m)) (logged tr).

(** The number of blocks read. *)
Fixpoint reads (tr : Trace) : nat :=
  match tr with
  | [] => O
  | EvReadFull :: tr' => S (reads tr')
  | _ :: tr' => reads tr'
  end.

(** The number of times the device was opened, and closed. *)
Fixpoint opens (tr : Trace) : nat :=
  match tr with
  | [] => O
  | EvOpen :: tr' => S (opens tr')
  | _ :: tr' => opens tr'
  end.

Fixpoint closes (tr : Trace) : nat :=
  match tr with
  | [] => O
  | EvClose :: tr' => S (closes tr')
  | _ :: tr' => closes tr'
  end.

Definition isFatal (e : Event) : bool :=
  match e with EvFatal _ => true | _ => false end.

Definition isTimeLimitPrint (e : Event) : bool :=
  match e with
  | EvPrintln s => String.eqb s "Time Limit Reached:"
  | _ => false
  end.

(** Where the sample file stands after the writes of a trace, starting
    from [pos]. *)
Fixpoint posAfter (pos : Z) (tr : Trace) : Z :=
  match tr with
  | [] => pos
  | EvSampleWrite iq :: tr' =>
      posAfter (wrap_int (pos + Z.of_nat (length iq))) tr'
  | _ :: tr' => posAfter pos tr'
  end.

(** Every position reported by a seek, and every [Offset] handed to the
    encoder, is the place where the sample file stands at that moment,
    given the writes that came before in the trace. *)
Fixpoint offsetsTrack (pos : Z) (tr : Trace) : bool :=
  match tr with
  | [] => true
  | EvSeek p :: tr' => (p =? pos) && offsetsTrack pos tr'
  | EvEncode m :: tr' => (Offset m =? pos) && offsetsTrack pos tr'
  | EvSampleWrite iq :: tr' =>
      offsetsTrack (wrap_int (pos + Z.of_nat (length iq))) tr'
  | _ :: tr' => offsetsTrack pos tr'
  end.

(** The records of a trace are for identifiers of the map [m], no two for
    the same one. *)
Definition onceEachSoFar (m : UintMap) (tr : Trace) : Prop :=
  (forall id, id ∈ loggedIDs tr -> is_Some (m !! id))
  /\ NoDup (loggedIDs tr).

(** Moreover [m'] is [m] without the identifiers logged. *)
Definition onceEach (m : UintMap) (tr : Trace) (m' : UintMap) : Prop :=
  onceEachSoFar m tr
  /\ forall id,
       m' !! id
       = if bool_decide (id ∈ loggedIDs tr) then None else m !! id.

(** Lines 65-66: the flags that switch the tuner to manual gain. *)
Definition isGainFlag (name : string) : bool :=
  String.eqb name "gainbyindex" || String.eqb name "tunergainmode"
  || String.eqb name "tunergain" || String.eqb name "agcmode".

Section Visit.
Context {FS : Type}.
Variables uniqueFilter meterIDFilter meterTypeFilter : Filter FS.

(** Lines 67-72: the filter a visited flag adds to the chain, if any. *)
Definition filterOf (name : string) : list (Filter FS) :=
  if isGainFlag name then []
  else if String.eqb name "unique" then [uniqueFilter]
  else if String.eqb name "filterid" then [meterIDFilter]
  else if String.eqb name "filtertype" then [meterTypeFilter]
  else [].
End Visit.

(** A filter that lets through the identifiers present in the map and no
    other: an instance of a chain that enforces membership. *)
Definition StrictIDFilter : Filter FilterStore := fun fs ids m =>
  (bool_decide (is_Some (ids !! MeterID m)), fs).

(** A start in which the parser cannot be built. *)
Definition exBadParser : StartEnv :=
  {| visited := ["filterid"]; newParser := inl "invalid message type";
     openErr := None; centerFreqErr := None; sampleRateErr := None;
     gainModeErr := None; cancelErr := None |}.

(** The flags of a run with gain, identifier and uniqueness options. *)
Definition exVisited : list string :=
  ["agcmode"; "filterid"; "single"; "unique"].

(** A start with gain, identifier and uniqueness options set. *)
Definition exStartAll : StartEnv :=
  {| visited := exVisited; newParser := inr exCfg;
     openErr := None; centerFreqErr := None; sampleRateErr := None;
     gainModeErr := None; cancelErr := None |}.

(** A packet on which the encoder fails. *)
Definition exBadEncode (id : N) : PktEnv :=
  {| pkt := exMsg id; now := 1700000001; encodeFails := true |}.

Definition exTimed : IterEnv :=
  {| sigintReady := false; timerFired := true; pickSigint := false;
     readFails := false; pkts := []; IQ := []; writeFails := false |}.

(** Flags that send the samples to the null device. *)
Definition exNoArchive : Flags :=
  {| version := false; quiet := true; single := false; timeLimit := 0;
     sampleFilename := DevNull |}.

(** Two identifiers awaited. *)
Definition exTwoIds : RunState FilterStore :=
  mkRunState exStore (<[ 42%N := true ]> {[ 43%N := true ]}) 0.

(** Blocks in which 42 shows up three times and 43 once. *)
Definition exRepeats : list IterEnv :=
  [exBlock [exPkt 42; exPkt 42]; exBlock [exPkt 44; exPkt 42];
   exBlock [exPkt 43; exPkt 42]; exBlock [exPkt 42]].

Lemma logged_app tr tr' : logged (tr ++ tr') = logged tr ++ logged tr'.
Proof.
  induction tr as [|e tr IH]; simpl; [reflexivity|].
  destruct e; simpl; rewrite ?IH; reflexivity.
Qed.

Lemma archiveWrites_app tr tr' :
  archiveWrites (tr ++ tr') = archiveWrites tr ++ archiveWrites tr'.
Proof.
  induction tr as [|e tr IH]; simpl; [reflexivity|].
  destruct e; simpl; rewrite ?IH; reflexivity.
Qed.

Lemma seeks_app tr tr' : seeks (tr ++ tr') = seeks tr ++ seeks tr'.
Proof.
  induction tr as [|e tr IH]; simpl; [reflexivity|].
  destruct e; simpl; rewrite ?IH; reflexivity.
Qed.

Lemma pktEvent_no_write tr :
  forallb pktEvent tr = true -> archiveWrites tr = [].
Proof.
  induction tr as [|e tr IH]; simpl; [reflexivity|].
  intros [He Htr]%andb_prop. destruct e; simpl in *; auto; discriminate.
Qed.

Lemma pktEvent_no_shutdown tr :
  forallb pktEvent tr = true -> forallb (fun e => negb (shutdownEvent e)) tr = true.
Proof.
  induction tr as [|e tr IH]; simpl; [reflexivity|].
  intros [He Htr]%andb_prop. rewrite IH by assumption.
  destruct e; simpl in *; auto; discriminate.
Qed.

Lemma startsClean_app tr tr' :
  startsClean tr = true -> startsClean tr' = true ->
  startsClean (tr ++ tr') = true.
Proof. destruct tr as [|e tr]; simpl; auto. Qed.

Lemma sepAfterEach_encode_clean sep m rest :
  startsClean rest = true ->
  sepAfterEach sep (EvEncode m :: rest) = negb sep && sepAfterEach sep rest.
Proof.
  destruct rest as [|e rest]; [reflexivity|].
  destruct e; simpl; intros H; try discriminate H; reflexivity.
Qed.

Lemma sepAfterEach_encode_newline sep m rest :
  sepAfterEach sep (EvEncode m :: EvNewline :: rest)
  = sep && sepAfterEach sep rest.
Proof. reflexivity. Qed.

Lemma sepAfterEach_read sep tr :
  sepAfterEach sep (EvReadFull :: tr) = sepAfterEach sep tr.
Proof. reflexivity. Qed.

Lemma sepAfterEach_app sep tr tr' :
  sepAfterEach sep tr = true -> sepAfterEach sep tr' = true ->
  startsClean tr' = true ->
  sepAfterEach sep (tr ++ tr') = true.
Proof.
  intros H1 H2 H3. revert H1.
  remember (length tr) as n eqn:Hn.
  revert tr Hn. induction n as [n IH] using lt_wf_ind. intros tr Hn.
  destruct tr as [|e tr]; [intros _; exact H2|].
  simpl in Hn.
  assert (Hrest : sepAfterEach sep tr = true ->
                  sepAfterEach sep (tr ++ tr') = true).
  { apply (IH (length tr)); [lia | reflexivity]. }
  destruct e; try exact Hrest; try discriminate.
  (* EvEncode *)
  destruct (startsClean tr) eqn:Hc.
  - rewrite sepAfterEach_encode_clean by exact Hc.
    intros [Ha Hb]%andb_prop.
    change ((EvEncode m :: tr) ++ tr') with (EvEncode m :: (tr ++ tr')).
    rewrite sepAfterEach_encode_clean by (apply startsClean_app; assumption).
    apply andb_true_intro; split; [exact Ha | apply Hrest, Hb].
  - destruct tr as [|e' tr2]; [discriminate Hc|].
    destruct e'; try discriminate Hc.
    + rewrite sepAfterEach_encode_newline.
      intros [Ha Hb]%andb_prop.
      change ((EvEncode m :: EvNewline :: tr2) ++ tr')
        with (EvEncode m :: EvNewline :: (tr2 ++ tr')).
      rewrite sepAfterEach_encode_newline.
      apply andb_true_intro; split; [exact Ha|].
      apply (IH (length tr2)); [simpl in Hn; lia | reflexivity | exact Hb].
    + intros _. reflexivity.
Qed.


(** ** Facts about the packet loop *)

Section RunFacts.
Context {FS : Type}.
Variable flags : Flags.
Variable cfg : Config.
Variable fc : list (Filter FS).
Variable encoder : Encoder.

Local Abbreviation handlePkt := (handlePkt flags cfg fc encoder).
Local Abbreviation rangePkts := (rangePkts flags cfg fc encoder).
Local Abbreviation afterPkts := (afterPkts flags).
Local Abbreviation receive := (receive flags cfg fc encoder).
Local Abbreviation loop := (loop flags cfg fc encoder).
Local Abbreviation stateAt := (stateAt flags cfg fc encoder).
Local Abbreviation recordFor := (@recordFor FS cfg).
Local Abbreviation logTrace := (@logTrace FS cfg encoder).
Local Abbreviation archiving := (archiving flags).

Ltac handlePkt_cases :=
  unfold handlePkt;
  destruct (Match _ _ _ _) as [ok fs'];
  destruct ok; simpl;
  [ destruct (encodeFails _);
    [ | destruct (single flags);
        [ destruct (size _ =? 0)%nat eqn:? | ] ]
  | ].

Lemma handlePkt_rejected st found e fs' :
  Match fc (fcState st) (meterID st) (pkt e) = (false, fs') ->
  handlePkt st found e
  = ([], mkRunState fs' (meterID st) (samplePos st), found, PktNext).
Proof. intros H. unfold handlePkt. rewrite H. reflexivity. Qed.

Lemma handlePkt_accepted st found e fs' :
  Match fc (fcState st) (meterID st) (pkt e) = (true, fs') ->
  encodeFails e = false ->
  handlePkt st found e
  = (logTrace st e,
     mkRunState fs'
       (if single flags && negb (size (meterID st) =? 0)%nat
        then delete (MeterID (pkt e)) (meterID st) else meterID st)
       (samplePos st),
     true,
     if single flags && (size (meterID st) =? 0)%nat
     then PktBreak else PktNext).
Proof.
  intros H He. unfold handlePkt. rewrite H, He. simpl.
  destruct (single flags); simpl; [|reflexivity].
  destruct (size (meterID st) =? 0)%nat; reflexivity.
Qed.

Lemma handlePkt_samplePos st found e tr st' found' ctl :
  handlePkt st found e = (tr, st', found', ctl) ->
  samplePos st' = samplePos st.
Proof. handlePkt_cases; intros [= <- <- <- <-]; reflexivity. Qed.

Lemma handlePkt_events st found e tr st' found' ctl :
  handlePkt st found e = (tr, st', found', ctl) ->
  forallb pktEvent tr = true /\ startsClean tr = true
  /\ sepAfterEach (isXml encoder) tr = true.
Proof.
  handlePkt_cases; intros [= <- <- <- <-]; simpl;
    destruct (isXml encoder); simpl; auto.
Qed.

Lemma handlePkt_records st found e tr st' found' ctl :
  handlePkt st found e = (tr, st', found', ctl) ->
  Forall (fun m => Offset m = samplePos st
                   /\ Length m = shl1 (BufferLength cfg)) (logged tr)
  /\ Forall (fun p => p = samplePos st) (seeks tr).
Proof.
  handlePkt_cases; intros [= <- <- <- <-]; simpl;
    destruct (isXml encoder); simpl; repeat constructor.
Qed.

Lemma handlePkt_found st found e tr st' found' ctl :
  handlePkt st found e = (tr, st', found', ctl) ->
  (found = true -> found' = true)
  /\ (found' = true -> found = true \/ logged tr <> [])
  /\ (meterID st' = meterID st \/ found' = true)
  /\ (single flags = false -> meterID st' = meterID st)
  /\ (ctl = PktBreak ->
      single flags = true /\ size (meterID st') = 0%nat /\ found' = true).
Proof.
  handlePkt_cases; intros [= <- <- <- <-]; simpl;
    repeat split; auto; try discriminate;
    try (intros _; right; destruct (isXml encoder); discriminate).
  apply Nat.eqb_eq. assumption.
Qed.

Lemma rangePkts_cons st found e l :
  rangePkts st found (e :: l)
  = let '(tr, st1, found1, ctl) := handlePkt st found e in
    match ctl with
    | PktNext =>
        let '(tr', st2, found2, ctl') := rangePkts st1 found1 l in
        (tr ++ tr', st2, found2, ctl')
    | _ => (tr, st1, found1, ctl)
    end.
Proof. reflexivity. Qed.

Ltac rangePkts_step IH :=
  let tr1 := fresh "tr1" in let s1 := fresh "s1" in
  let f1 := fresh "f1" in let c1 := fresh "c1" in
  let H1 := fresh "H1" in
  rewrite rangePkts_cons;
  destruct (handlePkt _ _ _) as [[[tr1 s1] f1] c1] eqn:H1;
  destruct c1;
  [ let tr2 := fresh "tr2" in let s2 := fresh "s2" in
    let f2 := fresh "f2" in let c2 := fresh "c2" in
    let H2 := fresh "H2" in
    destruct (rangePkts s1 f1 _) as [[[tr2 s2] f2] c2] eqn:H2;
    intros [= <- <- <- <-]; apply IH in H2
  | intros [= <- <- <- <-] | intros [= <- <- <- <-] ].

Lemma rangePkts_samplePos l : forall st found tr st' found' ctl,
  rangePkts st found l = (tr, st', found', ctl) ->
  samplePos st' = samplePos st.
Proof.
  induction l as [|e l IH]; intros st found tr st' found' ctl.
  - intros [= <- <- <- <-]. reflexivity.
  - rangePkts_step IH; apply handlePkt_samplePos in H1; congruence.
Qed.

Lemma rangePkts_events l : forall st found tr st' found' ctl,
  rangePkts st found l = (tr, st', found', ctl) ->
  forallb pktEvent tr = true /\ startsClean tr = true
  /\ sepAfterEach (isXml encoder) tr = true.
Proof.
  induction l as [|e l IH]; intros st found tr st' found' ctl.
  - intros [= <- <- <- <-]. auto.
  - rangePkts_step IH; apply handlePkt_events in H1 as (Ha & Hb & Hc); auto.
    destruct H2 as (Ha' & Hb' & Hc').
    rewrite forallb_app, Ha, Ha'.
    repeat split; auto using startsClean_app, sepAfterEach_app.
Qed.

Lemma rangePkts_records l : forall st found tr st' found' ctl,
  rangePkts st found l = (tr, st', found', ctl) ->
  Forall (fun m => Offset m = samplePos st
                   /\ Length m = shl1 (BufferLength cfg)) (logged tr)
  /\ Forall (fun p => p = samplePos st) (seeks tr).
Proof.
  induction l as [|e l IH]; intros st found tr st' found' ctl.
  - intros [= <- <- <- <-]. split; constructor.
  - rangePkts_step IH;
      pose proof (handlePkt_samplePos _ _ _ _ _ _ _ H1) as Hp;
      apply handlePkt_records in H1 as [Ha Hb]; auto.
    destruct H2 as [Ha' Hb']. rewrite Hp in Ha', Hb'.
    rewrite logged_app, seeks_app. split; apply Forall_app; auto.
Qed.

Lemma rangePkts_found l : forall st found tr st' found' ctl,
  rangePkts st found l = (tr, st', found', ctl) ->
  (found = true -> found' = true)
  /\ (found' = true -> found = true \/ logged tr <> [])
  /\ (meterID st' = meterID st \/ found' = true)
  /\ (single flags = false -> meterID st' = meterID st)
  /\ (ctl = PktBreak ->
      single flags = true /\ size (meterID st') = 0%nat /\ found' = true).
Proof.
  induction l as [|e l IH]; intros st found tr st' found' ctl.
  - intros [= <- <- <- <-]. repeat split; auto; discriminate.
  - rangePkts_step IH;
      apply handlePkt_found in H1 as (Ha & Hb & Hc & Hd & He); auto.
    destruct H2 as (Ha' & Hb' & Hc' & Hd' & He').
    split; [auto | split; [ | split; [ | split; [ | exact He' ]]]].
    + intros Hf. rewrite logged_app.
      destruct (Hb' Hf) as [Hf1|Hn].
      * destruct (Hb Hf1) as [?|Hn]; auto.
        right. intros [? _]%app_eq_nil. auto.
      * right. intros [_ ?]%app_eq_nil. auto.
    + destruct Hc' as [Hc'|?]; auto. rewrite Hc'.
      destruct Hc as [?|Hf]; auto.
    + intros Hs. rewrite Hd', Hd; auto.
Qed.
Lemma handlePkt_logged_found st found e tr st' found' ctl :
  handlePkt st found e = (tr, st', found', ctl) ->
  ctl <> PktFatal -> logged tr <> [] -> found' = true.
Proof.
  handlePkt_cases; intros [= <- <- <- <-]; simpl; auto; congruence.
Qed.

Lemma rangePkts_logged_found l : forall st found tr st' found' ctl,
  rangePkts st found l = (tr, st', found', ctl) ->
  ctl <> PktFatal -> logged tr <> [] -> found' = true.
Proof.
  induction l as [|e l IH]; intros st found tr st' found' ctl.
  - intros [= <- <- <- <-]. simpl. congruence.
  - rewrite rangePkts_cons.
    destruct (handlePkt st found e) as [[[tr1 s1] f1] c1] eqn:H1.
    destruct c1.
    + destruct (rangePkts s1 f1 l) as [[[tr2 s2] f2] c2] eqn:H2.
      intros [= <- <- <- <-] Hc. rewrite logged_app. intros Hl.
      destruct (logged tr2) as [|m2 l2] eqn:Hl2.
      * rewrite app_nil_r in Hl.
        eapply rangePkts_found in H2 as (Ha & _). apply Ha.
        eapply handlePkt_logged_found; eauto; discriminate.
      * eapply IH; eauto; rewrite Hl2; discriminate.
    + intros [= <- <- <- <-]. eauto using handlePkt_logged_found.
    + intros [= <- <- <- <-]. congruence.
Qed.

Lemma afterFirstWrite_app tr tr' :
  archiveWrites tr = [] ->
  afterFirstWrite (tr ++ tr') = afterFirstWrite tr'.
Proof.
  induction tr as [|e tr IH]; simpl; [reflexivity|].
  destruct e; simpl; auto; discriminate.
Qed.

(** The shape of the trace of one turn: the read, what the packet loop
    wrote, and at most one write of the sample window. *)
Lemma receive_shape st it tr st' c :
  receive st it = (tr, st', c) ->
  exists trP trA,
    tr = EvReadFull :: trP ++ trA
    /\ forallb pktEvent trP = true
    /\ startsClean (EvReadFull :: trP ++ trA) = true
    /\ sepAfterEach (isXml encoder) (EvReadFull :: trP ++ trA) = true
    /\ Forall (fun m => Offset m = samplePos st
                        /\ Length m = shl1 (BufferLength cfg)) (logged trP)
    /\ Forall (fun p => p = samplePos st) (seeks trP)
    /\ (c <> Abort -> (trA <> [] <-> logged trP <> [] /\ archiving = true))
    /\ ((trA = [] /\ samplePos st' = samplePos st)
        \/ (trA = [EvSampleWrite (IQ it)] /\ c <> Abort
            /\ archiving = true /\ logged trP <> []
            /\ samplePos st'
               = wrap_int (samplePos st + Z.of_nat (length (IQ it))))
        \/ (trA = [EvSampleWrite (IQ it);
                   EvFatal "Error writing raw samples to file:"]
            /\ c = Abort /\ archiving = true /\ logged trP <> []
            /\ samplePos st' = samplePos st)).
Proof.
  unfold receive.
  destruct (readFails it).
  { intros [= <- <- <-].
    exists [EvFatal "Error reading samples: "], [].
    repeat split; auto; try constructor; try congruence. }
  destruct (rangePkts st false (pkts it)) as [[[trP s1] f1] c1] eqn:HP.
  pose proof (rangePkts_samplePos _ _ _ _ _ _ _ HP) as Hpos.
  pose proof (rangePkts_events _ _ _ _ _ _ _ HP) as (Hev & Hcl & Hsep).
  pose proof (rangePkts_records _ _ _ _ _ _ _ HP) as (Hrec & Hsk).
  pose proof (rangePkts_found _ _ _ _ _ _ _ HP) as (_ & Hf & _).
  pose proof (rangePkts_logged_found _ _ _ _ _ _ _ HP) as Hlf.
  assert (Hshape : forall trA st2 c2,
    afterPkts s1 f1 it = (trA, st2, c2) ->
    c1 <> PktFatal ->
    startsClean (EvReadFull :: trP ++ trA) = true
    /\ sepAfterEach (isXml encoder) (EvReadFull :: trP ++ trA) = true
    /\ (c2 <> Abort -> (trA <> [] <-> logged trP <> [] /\ archiving = true))
    /\ ((trA = [] /\ samplePos st2 = samplePos st)
        \/ (trA = [EvSampleWrite (IQ it)] /\ c2 <> Abort
            /\ archiving = true /\ logged trP <> []
            /\ samplePos st2
               = wrap_int (samplePos st + Z.of_nat (length (IQ it))))
        \/ (trA = [EvSampleWrite (IQ it);
                   EvFatal "Error writing raw samples to file:"]
            /\ c2 = Abort /\ archiving = true /\ logged trP <> []
            /\ samplePos st2 = samplePos st))).
  { intros trA st2 c2. unfold afterPkts.
    intros HA Hc1.
    assert (Hl : f1 = true -> logged trP <> []).
    { intros H. destruct (Hf H); [discriminate | assumption]. }
    destruct f1.
    - destruct archiving eqn:Harch.
      + destruct (writeFails it); injection HA as <- <- <-.
        * split; [reflexivity|]. split.
          { rewrite sepAfterEach_read. apply sepAfterEach_app; auto. }
          split; [congruence|]. right; right. repeat split; auto.
        * split; [reflexivity|]. split.
          { rewrite sepAfterEach_read. apply sepAfterEach_app; auto. }
          split.
          { intros _. split; [auto | discriminate]. }
          right; left. simpl. rewrite Hpos.
          repeat split; auto; destruct (_ && _); discriminate.
      + injection HA as <- <- <-. rewrite app_nil_r.
        split; [reflexivity|]. split; [exact Hsep|]. split.
        { intros _. split; [congruence | intros [_ ?]; discriminate]. }
        left. auto.
    - injection HA as <- <- <-. rewrite app_nil_r.
      split; [reflexivity|]. split; [exact Hsep|]. split.
      { intros _. split; [congruence|].
        intros [Hne _]. specialize (Hlf Hc1 Hne). discriminate. }
      left. auto. }
  destruct c1.
  - destruct (afterPkts s1 f1 it) as [[trA st2] c2] eqn:HA.
    intros [= <- <- <-]. exists trP, trA.
    destruct (Hshape _ _ _ eq_refl) as (? & ? & ? & ?); [discriminate|].
    repeat split; auto; tauto.
  - destruct (afterPkts s1 f1 it) as [[trA st2] c2] eqn:HA.
    intros [= <- <- <-]. exists trP, trA.
    destruct (Hshape _ _ _ eq_refl) as (? & ? & ? & ?); [discriminate|].
    repeat split; auto; tauto.
  - intros [= <- <- <-]. exists trP, [].
    rewrite app_nil_r. repeat split; auto; congruence.
Qed.
End RunFacts.

(** ** One block *)

Section BlockClaims.
Context {FS : Type}.
Variable flags : Flags.
Variable cfg : Config.
Variable fc : list (Filter FS).
Variable encoder : Encoder.

Local Abbreviation handlePkt := (handlePkt flags cfg fc encoder).
Local Abbreviation rangePkts := (rangePkts flags cfg fc encoder).
Local Abbreviation receive := (receive flags cfg fc encoder).
Local Abbreviation recordFor := (@recordFor FS cfg).
Local Abbreviation logTrace := (@logTrace FS cfg encoder).
Local Abbreviation archiving := (archiving flags).
Local Abbreviation accepted := (accepted flags fc).
Local Abbreviation passing := (passing flags fc).

Lemma logged_logTrace st e : logged (logTrace st e) = [recordFor st e].
Proof. unfold logTrace. destruct (isXml encoder); reflexivity. Qed.

Lemma rangePkts_accepted l : forall st found,
  forallb (fun e => negb (encodeFails e)) l = true ->
  map Message (logged (rangePkts st found l).1.1.1)
  = accepted (fcState st) (meterID st) l.
Proof.
  induction l as [|e l IH]; intros st found; [reflexivity|].
  simpl forallb. intros [He Hl]%andb_prop. apply negb_true_iff in He.
  rewrite rangePkts_cons. simpl accepted.
  destruct (Match fc (fcState st) (meterID st) (pkt e)) as [ok fs'] eqn:HM.
  destruct ok.
  - rewrite (handlePkt_accepted _ _ _ _ _ _ _ _ HM He).
    destruct (single flags); cbn [andb negb].
    + destruct (size (meterID st) =? 0)%nat; cbn [andb negb fst].
      * rewrite logged_logTrace. reflexivity.
      * specialize (IH (mkRunState fs' (delete (MeterID (pkt e)) (meterID st))
                          (samplePos st)) true Hl).
        destruct (rangePkts _ true l) as [[[tr2 s2] f2] c2].
        cbn [fst fcState meterID] in *.
        rewrite logged_app, logged_logTrace, <- IH. reflexivity.
    + specialize (IH (mkRunState fs' (meterID st) (samplePos st)) true Hl).
      destruct (rangePkts _ true l) as [[[tr2 s2] f2] c2].
      cbn [fst fcState meterID] in *.
      rewrite logged_app, logged_logTrace, <- IH. reflexivity.
  - rewrite (handlePkt_rejected _ _ _ _ _ _ _ _ HM).
    specialize (IH (mkRunState fs' (meterID st) (samplePos st)) found Hl).
    destruct (rangePkts _ found l) as [[[tr2 s2] f2] c2].
    simpl in *. exact IH.
Qed.

Lemma accepted_not_single l : forall fs ids,
  single flags = false -> accepted fs ids l = passing fs ids l.
Proof.
  induction l as [|e l IH]; intros fs ids Hs; [reflexivity|].
  simpl. destruct (Match fc fs ids (pkt e)) as [ok fs'].
  rewrite Hs. destruct ok; rewrite IH by assumption; reflexivity.
Qed.

Lemma receive_logged st it :
  readFails it = false ->
  forallb (fun e => negb (encodeFails e)) (pkts it) = true ->
  map Message (logged (receive st it).1.1)
  = accepted (fcState st) (meterID st) (pkts it).
Proof.
  intros Hr He. rewrite <- (rangePkts_accepted _ st false He).
  unfold receive. rewrite Hr.
  destruct (rangePkts st false (pkts it)) as [[[trP s1] f1] c1].
  simpl. destruct c1.
  - unfold afterPkts.
    destruct f1; [destruct archiving; [destruct (writeFails it)|]|];
      simpl; rewrite ?logged_app, ?app_nil_r; simpl;
      rewrite ?app_nil_r; reflexivity.
  - unfold afterPkts.
    destruct f1; [destruct archiving; [destruct (writeFails it)|]|];
      simpl; rewrite ?logged_app, ?app_nil_r; simpl;
      rewrite ?app_nil_r; reflexivity.
  - reflexivity.
Qed.

(** C9.  A block for which the parser returns no candidate message: no log
    record is written, nothing is written to the sample file, whose position
    stays where it was, and the identifier map is untouched; when the block
    was read in full the turn consists of the read alone and the loop goes
    on. *)
Theorem block_without_candidates st it :
  pkts it = [] ->
  let '(tr, st', c) := receive st it in
  logged tr = [] /\ archiveWrites tr = []
  /\ samplePos st' = samplePos st /\ meterID st' = meterID st
  /\ (readFails it = false -> tr = [EvReadFull] /\ st' = st /\ c = Continue).
Proof.
  intros Hp. unfold receive. rewrite Hp.
  destruct (readFails it); simpl; repeat split; auto; discriminate.
Qed.

(** C10.  A packet the filter chain rejects: the body of the packet loop
    emits no event (so no log record), leaves the identifier map and the
    file position alone, leaves [pktFound] as it was (so it is not this
    packet that gets the block archived or, in single mode, the run ended)
    and moves on to the next packet.  The rest of the block, and the turn as
    a whole once the block has been read, go exactly as if the packet had
    not been there, from the state in which the filters left their own
    memory. *)
Theorem rejected_pkt_no_effect st found e fs' :
  Match fc (fcState st) (meterID st) (pkt e) = (false, fs') ->
  let st1 := mkRunState fs' (meterID st) (samplePos st) in
  handlePkt st found e = ([], st1, found, PktNext)
  /\ (forall l, rangePkts st found (e :: l) = rangePkts st1 found l)
  /\ (forall it l,
        readFails it = false ->
        receive st (withPkts it (e :: l)) = receive st1 (withPkts it l)).
Proof.
  intros HM st1.
  assert (H1 : handlePkt st found e = ([], st1, found, PktNext))
    by (apply handlePkt_rejected; exact HM).
  assert (H2 : forall b l, rangePkts st b (e :: l) = rangePkts st1 b l).
  { intros b l. rewrite rangePkts_cons.
    rewrite (handlePkt_rejected _ _ _ _ _ b _ _ HM). fold st1.
    destruct (rangePkts st1 b l) as [[[tr2 s2] f2] c2]. reflexivity. }
  split; [exact H1|]. split; [apply H2|].
  intros it l Hr. unfold receive, withPkts. cbn [pkts readFails].
  rewrite H2, Hr.
  destruct (rangePkts st1 false l) as [[[tr2 s2] f2] c2].
  destruct c2; reflexivity.
Qed.

(** C7.  Within one turn of the loop every log record carries, as its
    [Offset], the position the sample file had when the turn began, and
    every [Seek] reports that position: the packet loop never moves it.
    Nothing is read or logged after the write of the block; when the block
    is written, the write starts at that very position, so that afterwards
    the file stands [len(IQ)] bytes further. *)
Theorem Offset_read_before_write st it :
  let '(tr, st', c) := receive st it in
  Forall (fun m => Offset m = samplePos st) (logged tr)
  /\ Forall (fun p => p = samplePos st) (seeks tr)
  /\ logged (afterFirstWrite tr) = []
  /\ seeks (afterFirstWrite tr) = []
  /\ (archiveWrites tr = []
      \/ archiveWrites tr = [IQ it]
         /\ (c = Abort \/
             samplePos st'
             = wrap_int (samplePos st + Z.of_nat (length (IQ it))))).
Proof.
  destruct (receive st it) as [[tr st'] c] eqn:H.
  apply receive_shape in H
    as (trP & trA & -> & Hev & _ & _ & Hrec & Hsk & _ & HA).
  pose proof (pktEvent_no_write _ Hev) as Hnw.
  assert (HlA : logged trA = [] /\ seeks trA = []
                /\ logged (afterFirstWrite trA) = []
                /\ seeks (afterFirstWrite trA) = []).
  { destruct HA as [[-> _]|[(-> & _)|(-> & _)]]; repeat split. }
  destruct HlA as (Hl1 & Hl2 & Hl3 & Hl4).
  simpl. rewrite logged_app, seeks_app, archiveWrites_app, Hl1, Hl2, Hnw.
  rewrite !app_nil_r, afterFirstWrite_app by exact Hnw.
  split; [eapply Forall_impl; [exact Hrec | intros m [? _]; assumption]|].
  split; [exact Hsk|]. split; [exact Hl3|]. split; [exact Hl4|].
  destruct HA as [[-> _]|[(-> & _ & _ & _ & Hp)|(-> & -> & _)]]; simpl; auto.
Qed.

(** C3, as the code has it.  In one turn of the loop the sample window is
    written at most once, and only when at least one record was logged for
    the block and the sample file is not the null device; conversely a turn
    that logged a record and did not die writes it.  When the block was read
    and no encode failed, the logged messages are exactly [accepted]: the
    candidates that pass the chain, one record each, up to the point where,
    in single mode, a message is logged while the identifier map is already
    empty; outside single mode that is every candidate that passes. *)
Theorem archive_once_per_block st it :
  let '(tr, st', c) := receive st it in
  (length (archiveWrites tr) <= 1)%nat
  /\ (archiveWrites tr <> [] ->
      archiveWrites tr = [IQ it] /\ logged tr <> [] /\ archiving = true)
  /\ (c <> Abort -> logged tr <> [] -> archiving = true ->
      archiveWrites tr = [IQ it])
  /\ (readFails it = false ->
      forallb (fun e => negb (encodeFails e)) (pkts it) = true ->
      map Message (logged tr) = accepted (fcState st) (meterID st) (pkts it)
      /\ (single flags = false ->
          map Message (logged tr)
          = passing (fcState st) (meterID st) (pkts it))).
Proof.
  pose proof (receive_logged st it) as HL.
  destruct (receive st it) as [[tr st'] c] eqn:H. cbn [fst] in HL.
  apply receive_shape in H
    as (trP & trA & -> & Hev & _ & _ & _ & _ & Hiff & HA).
  pose proof (pktEvent_no_write _ Hev) as Hnw.
  assert (HlA : logged trA = [])
    by (destruct HA as [[-> _]|[(-> & _)|(-> & _)]]; reflexivity).
  simpl. rewrite archiveWrites_app, logged_app, Hnw, HlA, app_nil_r.
  simpl. split; [|split; [|split]].
  - destruct HA as [[-> _]|[(-> & _)|(-> & _)]]; simpl; lia.
  - intros Hne.
    destruct HA as [[-> _]|[(-> & _ & ? & ? & _)|(-> & _ & ? & ? & _)]];
      simpl in *; auto; congruence.
  - intros Hc Hne Harch. apply Hiff in Hc.
    destruct HA as [[-> _]|[(-> & _)|(-> & -> & _)]]; simpl; auto.
    destruct Hc as [_ Hc]. exfalso. apply Hc; auto.
  - intros Hr He. specialize (HL Hr He).
    simpl in HL. rewrite logged_app, HlA, app_nil_r in HL.
    split; [exact HL|].
    intros Hs. rewrite <- accepted_not_single by exact Hs. exact HL.
Qed.

(** C5, as the code has it.  In single mode a packet that passes the filter
    chain is logged whether or not its identifier is in the map: [Run] makes
    no test of its own.  After the record is written, an empty map ends the
    packet loop and nothing is removed; otherwise the identifier is deleted
    from the map (no change when it was not there) and the loop goes on. *)
Theorem single_mode_acceptance st found e fs' :
  single flags = true ->
  Match fc (fcState st) (meterID st) (pkt e) = (true, fs') ->
  encodeFails e = false ->
  let '(tr, st', found', ctl) := handlePkt st found e in
  tr = logTrace st e /\ logged tr = [recordFor st e] /\ found' = true
  /\ (meterID st = ∅ -> meterID st' = ∅ /\ ctl = PktBreak)
  /\ (meterID st <> ∅ ->
      meterID st' = delete (MeterID (pkt e)) (meterID st)
      /\ meterID st' !! MeterID (pkt e) = None
      /\ ctl = PktNext).
Proof.
  intros Hs HM He. rewrite (handlePkt_accepted _ _ _ _ _ _ _ _ HM He), Hs.
  cbn [andb]. split; [reflexivity|]. split; [apply logged_logTrace|].
  split; [reflexivity|]. split.
  - intros Hz. rewrite Hz, map_size_empty. simpl. auto.
  - intros Hz. destruct (size (meterID st) =? 0)%nat eqn:Hsz.
    + apply Nat.eqb_eq, map_size_empty_iff in Hsz. contradiction.
    + simpl. repeat split. apply lookup_delete_eq.
Qed.
End BlockClaims.

(** ** The loop *)

Section LoopClaims.
Context {FS : Type}.
Variable flags : Flags.
Variable cfg : Config.
Variable fc : list (Filter FS).
Variable encoder : Encoder.

Local Abbreviation rangePkts := (rangePkts flags cfg fc encoder).
Local Abbreviation receive := (receive flags cfg fc encoder).
Local Abbreviation select := (select flags).
Local Abbreviation loop := (loop flags cfg fc encoder).
Local Abbreviation Run := (Run flags cfg fc encoder).
Local Abbreviation stateAt := (stateAt flags cfg fc encoder).
Local Abbreviation archiving := (archiving flags).

Lemma loop_cons st it its :
  loop st (it :: its)
  = match select it with
    | SelSigint => ([], st, Interrupted)
    | SelTLimit => ([EvPrintln "Time Limit Reached:"], st, TimeLimitReached)
    | SelDefault =>
        let '(tr, st1, c) := receive st it in
        match c with
        | Continue =>
            let '(tr', st2, e) := loop st1 its in (tr ++ tr', st2, e)
        | Return => (tr, st1, Completed)
        | Abort => (tr, st1, Died)
        end
    end.
Proof. reflexivity. Qed.

(** How a turn ends in relation to the identifier map. *)
Lemma receive_ctl st it tr st' c :
  receive st it = (tr, st', c) ->
  (c = Return ->
     single flags = true /\ meterID st' = ∅ /\ logged tr <> []
     /\ (archiving = true -> exists tr0, tr = tr0 ++ [EvSampleWrite (IQ it)]))
  /\ (c = Continue -> single flags = true ->
      meterID st <> ∅ -> meterID st' <> ∅)
  /\ (c <> Abort -> single flags = true ->
      meterID st <> ∅ -> meterID st' = ∅ -> c = Return).
Proof.
  unfold receive. destruct (readFails it).
  { intros [= <- <- <-]. repeat split; try discriminate; congruence. }
  destruct (rangePkts st false (pkts it)) as [[[trP s1] f1] c1] eqn:HP.
  pose proof (rangePkts_found _ _ _ _ _ _ _ _ _ _ _ HP)
    as (_ & Hf & Hid & _ & _).
  assert (Hafter : forall trA st2 c2,
    afterPkts flags s1 f1 it = (trA, st2, c2) ->
    (c2 = Return ->
       single flags = true /\ meterID st2 = ∅
       /\ logged (EvReadFull :: trP ++ trA) <> []
       /\ (archiving = true ->
           exists tr0, EvReadFull :: trP ++ trA
                       = tr0 ++ [EvSampleWrite (IQ it)]))
    /\ (c2 = Continue -> single flags = true ->
        meterID st <> ∅ -> meterID st2 <> ∅)
    /\ (c2 <> Abort -> single flags = true ->
        meterID st <> ∅ -> meterID st2 = ∅ -> c2 = Return)).
  { intros trA st2 c2. unfold afterPkts.
    destruct f1.
    - assert (Hl : logged trP <> [])
        by (destruct Hf as [?|?]; [reflexivity|discriminate|assumption]).
      assert (Hl' : forall x, logged (EvReadFull :: trP ++ x) <> []).
      { intros x. simpl. rewrite logged_app.
        intros [? _]%app_eq_nil. contradiction. }
      destruct archiving eqn:Harch;
        [destruct (writeFails it)|];
        destruct (single flags) eqn:Hs;
        destruct (size (meterID s1) =? 0)%nat eqn:Hsz;
        cbn [andb]; intros [= <- <- <-]; cbn [meterID];
        try apply Nat.eqb_eq, map_size_empty_iff in Hsz;
        try (apply Nat.eqb_neq in Hsz;
             assert (meterID s1 <> ∅)
               by (intros Hz; apply Hsz; rewrite Hz; apply map_size_empty));
        (split; [intros ?|split; [intros ?|intros ?]]);
        try discriminate; try congruence; auto.
      + repeat split; auto.
        intros _. exists (EvReadFull :: trP). reflexivity.
      + repeat split; auto. discriminate.
    - destruct Hid as [Hid|?]; [|discriminate].
      intros [= <- <- <-]. rewrite Hid.
      repeat split; try discriminate; congruence. }
  destruct c1.
  - destruct (afterPkts flags s1 f1 it) as [[trA st2] c2].
    intros [= <- <- <-]. apply (Hafter _ _ _ eq_refl).
  - destruct (afterPkts flags s1 f1 it) as [[trA st2] c2].
    intros [= <- <- <-]. apply (Hafter _ _ _ eq_refl).
  - intros [= <- <- <-]. repeat split; try discriminate; congruence.
Qed.




Lemma shl1_double x : - 2 ^ 62 <= x < 2 ^ 62 -> shl1 x = 2 * x.
Proof.
  intros Hx. unfold shl1, wrap_int. rewrite Z.shiftl_mul_pow2 by lia.
  change (2 ^ 1) with 2. rewrite Z.mod_small by lia. lia.
Qed.

Lemma receive_events st it tr st' c :
  receive st it = (tr, st', c) ->
  forallb loopEvent tr = true
  /\ startsClean tr = true
  /\ sepAfterEach (isXml encoder) tr = true
  /\ Forall (fun m => Length m = shl1 (BufferLength cfg)) (logged tr).
Proof.
  intros H. apply receive_shape in H
    as (trP & trA & -> & Hev & Hcl & Hsep & Hrec & _ & _ & HA).
  split; [|split; [exact Hcl|split; [exact Hsep|]]].
  - simpl. rewrite forallb_app. apply andb_true_intro. split.
    + clear -Hev. induction trP as [|e trP IH]; [reflexivity|].
      simpl in *. apply andb_prop in Hev as [He Hev].
      rewrite IH by exact Hev. destruct e; simpl in *; auto.
    + destruct HA as [[-> _]|[(-> & _)|(-> & _)]]; reflexivity.
  - simpl. rewrite logged_app. apply Forall_app. split.
    + eapply Forall_impl; [exact Hrec|]. intros m [_ ?]. assumption.
    + destruct HA as [[-> _]|[(-> & _)|(-> & _)]]; constructor.
Qed.

Lemma loop_events its : forall st tr st' e,
  loop st its = (tr, st', e) ->
  forallb loopEvent tr = true
  /\ startsClean tr = true
  /\ sepAfterEach (isXml encoder) tr = true
  /\ Forall (fun m => Length m = shl1 (BufferLength cfg)) (logged tr).
Proof.
  induction its as [|it its IH]; intros st tr st' e.
  - intros [= <- <- <-]. repeat split; constructor.
  - rewrite loop_cons. destruct (select it).
    + intros [= <- <- <-]. repeat split; constructor.
    + intros [= <- <- <-]. repeat split; constructor.
    + destruct (receive st it) as [[tr1 st1] c1] eqn:HR.
      apply receive_events in HR as (H1 & H2 & H3 & H4).
      destruct c1; try (intros [= <- <- <-]; auto).
      destruct (loop st1 its) as [[tr2 st2] e2] eqn:HL.
      apply IH in HL as (H1' & H2' & H3' & H4').
      intros [= <- <- <-].
      rewrite forallb_app, H1, H1', logged_app.
      repeat split; auto using startsClean_app, sepAfterEach_app.
      apply Forall_app; auto.
Qed.

Lemma loopEvent_no_shutdown tr :
  forallb loopEvent tr = true ->
  forallb (fun e => negb (shutdownEvent e)) tr = true.
Proof.
  induction tr as [|e tr IH]; simpl; [reflexivity|].
  intros [He Htr]%andb_prop. rewrite IH by assumption.
  destruct e; simpl in *; auto; discriminate.
Qed.


(** C6, as the code has it.  Every record handed to the encoder during a
    run has [Length] equal to [BufferLength << 1]; as long as the shift does
    not overflow that is twice the configured buffer length. *)
Theorem Length_is_twice_BufferLength st its :
  let '(tr, _, _) := Run st its in
  Forall (fun m => Length m = shl1 (BufferLength cfg)) (logged tr)
  /\ (- 2 ^ 62 <= BufferLength cfg < 2 ^ 62 ->
      Forall (fun m => Length m = 2 * BufferLength cfg) (logged tr)).
Proof.
  unfold Run.
  destruct (loop st its) as [[tr st'] e] eqn:HL.
  apply loop_events in HL as (_ & _ & _ & HF).
  assert (HR : logged ([EvNotify; EvReadAsync] ++ tr
                       ++ (if returned e then [EvPipeClose] else []))
               = logged tr).
  { simpl. rewrite logged_app. destruct (returned e); apply app_nil_r. }
  rewrite HR. split; [exact HF|].
  intros Hb. rewrite <- (shl1_double _ Hb). exact HF.
Qed.

End LoopClaims.

(** ** The encoder *)

Section EncoderClaims.
Context {FS : Type}.
Variable flags : Flags.
Variable cfg : Config.
Variable fc : list (Filter FS).
Variable encoder : Encoder.

Lemma handlePkt_encoder enc1 enc2 st found e :
  isXml enc1 = isXml enc2 ->
  handlePkt flags cfg fc enc1 st found e
  = handlePkt flags cfg fc enc2 st found e.
Proof. intros H. unfold handlePkt, logTrace. rewrite H. reflexivity. Qed.

Lemma rangePkts_encoder enc1 enc2 l : forall st found,
  isXml enc1 = isXml enc2 ->
  rangePkts flags cfg fc enc1 st found l
  = rangePkts flags cfg fc enc2 st found l.
Proof.
  induction l as [|e l IH]; intros st found H; [reflexivity|].
  rewrite !rangePkts_cons, (handlePkt_encoder enc1 enc2) by exact H.
  destruct (handlePkt flags cfg fc enc2 st found e) as [[[tr1 s1] f1] c1].
  destruct c1; try reflexivity. rewrite IH by exact H. reflexivity.
Qed.

Lemma loop_encoder enc1 enc2 its : forall st,
  isXml enc1 = isXml enc2 ->
  loop flags cfg fc enc1 st its
  = loop flags cfg fc enc2 st its.
Proof.
  induction its as [|it its IH]; intros st H; [reflexivity|].
  simpl. unfold receive.
  rewrite (rangePkts_encoder enc1 enc2) by exact H.
  destruct (select flags it); try reflexivity.
  destruct (readFails it); try reflexivity.
  destruct (rangePkts flags cfg fc enc2 st false (pkts it))
    as [[[tr1 s1] f1] c1].
  destruct c1; try reflexivity;
    destruct (afterPkts flags s1 f1 it) as [[trA st2] c2];
    destruct c2; try reflexivity; rewrite IH by exact H; reflexivity.
Qed.

(** C8, as the code has it.  Throughout a run, each record handed to the
    encoder is followed by a newline on the log file exactly when the
    encoder is the XML encoder (a failed encode is followed by the fatal
    error instead), and no newline is written anywhere else.  What the
    encoder declares about separators plays no part: changing that
    declaration changes nothing in the run. *)
Theorem newline_iff_xml_encoder st its :
  (let '(tr, _, _) := Run flags cfg fc encoder st its in
   sepAfterEach (isXml encoder) tr = true)
  /\ (forall declared,
        Run flags cfg fc
          {| enc_type := enc_type encoder; needsRecordSeparator := declared |}
          st its
        = Run flags cfg fc encoder st its).
Proof.
  split.
  - unfold Run.
    destruct (loop flags cfg fc encoder st its) as [[tr st'] e] eqn:HL.
    apply loop_events in HL as (_ & Hc & Hsep & _).
    change (sepAfterEach (isXml encoder)
              (tr ++ (if returned e then [EvPipeClose] else [])) = true).
    apply sepAfterEach_app; auto; destruct (returned e); reflexivity.
  - intros declared. unfold Run.
    rewrite (loop_encoder _ encoder) by reflexivity. reflexivity.
Qed.
End EncoderClaims.

(** ** The whole program *)

Section MainClaims.
Context {FS : Type}.
Variables uniqueFilter meterIDFilter meterTypeFilter : Filter FS.
Variables buildDate commitHash : string.

Local Abbreviation NewReceiver :=
  (NewReceiver uniqueFilter meterIDFilter meterTypeFilter).
Local Abbreviation main :=
  (main uniqueFilter meterIDFilter meterTypeFilter buildDate commitHash).

Lemma quietEvent_app tr tr' :
  forallb quietEvent tr = true -> forallb quietEvent tr' = true ->
  forallb quietEvent (tr ++ tr') = true.
Proof. intros H H'. rewrite forallb_app, H, H'. reflexivity. Qed.

Lemma printVersion_quiet :
  forallb quietEvent (printVersion buildDate commitHash) = true
  /\ forallb (fun e => negb (hardwareEvent e))
       (printVersion buildDate commitHash) = true.
Proof. unfold printVersion. destruct (_ || _); split; reflexivity. Qed.

Lemma HandleFlags_quiet flags ids :
  forallb quietEvent (HandleFlags flags ids).1 = true.
Proof. unfold HandleFlags. destruct (_ && _); reflexivity. Qed.

Lemma NewReceiver_quiet flags env :
  forallb quietEvent (NewReceiver flags env).1 = true.
Proof.
  unfold NewReceiver.
  destruct (newParser env); [reflexivity|].
  destruct (openErr env); [reflexivity|].
  destruct (fold_left _ _ _) as [g fc].
  destruct (centerFreqErr env); [reflexivity|].
  destruct (sampleRateErr env); [reflexivity|].
  destruct (gainModeErr env); [reflexivity|].
  destruct (quiet flags); reflexivity.
Qed.

Lemma Run_quiet flags cfg fc encoder (st : RunState FS) its :
  forallb quietEvent (Run flags cfg fc encoder st its).1.1 = true.
Proof.
  unfold Run. destruct (loop flags cfg fc encoder st its) as [[tr st'] e] eqn:HL.
  apply loop_events in HL as (Hev & _).
  apply loopEvent_no_shutdown in Hev. cbn [fst].
  apply (quietEvent_app [EvNotify; EvReadAsync]); [reflexivity|].
  apply quietEvent_app; [exact Hev|]. destruct (returned e); reflexivity.
Qed.

(** C1, as the code has it.  (1) Whatever happens, the trace of the program
    is a stretch without any shutdown event, followed by nothing, or by the
    full shutdown sequence -- log file closed, sample file closed,
    [CancelAsync] returned without error, device closed, exit 0 -- or by the
    sequence cut short by the fatal error of a failed [CancelAsync], in
    which the device is not closed.  So the device is closed only after the
    files are closed and the cancellation has returned.  (2) When [Run]
    returns (interrupt, time limit, or completion in single mode) the
    sequence does run, right after [Run]'s own deferred closing of the
    pipe. *)
Theorem shutdown_order flags encoder env (st : RunState FS) its :
  (let '(tr, code) := main flags encoder env st its in
   exists pre suf,
     tr = pre ++ suf /\ forallb quietEvent pre = true
     /\ (suf = [] /\ code <> Some 0 \/ suf = [] /\ version flags = true
         \/ suf = shutdownDone /\ code = Some 0
         \/ exists err, suf = shutdownCancelFailed err /\ code = Some 1))
  /\ (forall tr0 tr1 cfg fc tr2 st' e,
        version flags = false ->
        HandleFlags flags (meterID st) = (tr0, true) ->
        NewReceiver flags env = (tr1, Some (cfg, fc)) ->
        Run flags cfg fc encoder st its = (tr2, st', e) ->
        returned e = true ->
        (exists tr2', tr2 = tr2' ++ [EvPipeClose])
        /\ main flags encoder env st its
           = (tr0 ++ tr1 ++ tr2
                ++ match cancelErr env with
                   | None => shutdownDone
                   | Some err => shutdownCancelFailed err
                   end,
              Some (match cancelErr env with None => 0 | Some _ => 1 end))).
Proof.
  split.
  - unfold main.
    destruct (version flags) eqn:Hv.
    { exists (printVersion buildDate commitHash), [].
      rewrite app_nil_r. split; [reflexivity|].
      split; [apply printVersion_quiet | auto]. }
    pose proof (HandleFlags_quiet flags (meterID st)) as H0.
    destruct (HandleFlags flags (meterID st)) as [tr0 ok]. cbn [fst] in H0.
    destruct ok; cbn [negb].
    2:{ exists tr0, []. rewrite app_nil_r.
        split; [reflexivity|]. split; [exact H0|].
        left. split; [reflexivity | discriminate]. }
    pose proof (NewReceiver_quiet flags env) as H1.
    destruct (NewReceiver flags env) as [tr1 [[cfg fc]|]]; cbn [fst] in H1.
    2:{ exists (tr0 ++ tr1), []. rewrite app_nil_r.
        split; [reflexivity|]. split; [apply quietEvent_app; assumption|].
        left. split; [reflexivity | discriminate]. }
    pose proof (Run_quiet flags cfg fc encoder st its) as H2.
    destruct (Run flags cfg fc encoder st its) as [[tr2 st'] e].
    cbn [fst] in H2.
    assert (Hq : forallb quietEvent (tr0 ++ tr1 ++ tr2) = true)
      by (repeat apply quietEvent_app; assumption).
    assert (Hsd : let '(tr3, code) := shutdown env in
      exists pre suf,
        tr0 ++ tr1 ++ tr2 ++ tr3 = pre ++ suf
        /\ forallb quietEvent pre = true
        /\ (suf = [] /\ Some code <> Some 0 \/ suf = [] /\ false = true
            \/ suf = shutdownDone /\ Some code = Some 0
            \/ exists err, suf = shutdownCancelFailed err
                           /\ Some code = Some 1)).
    { unfold shutdown. destruct (cancelErr env) as [err|].
      - exists (tr0 ++ tr1 ++ tr2), (shutdownCancelFailed err).
        rewrite <- !app_assoc. split; [reflexivity|]. split; [exact Hq|].
        right; right; right. exists err. auto.
      - exists (tr0 ++ tr1 ++ tr2), shutdownDone.
        rewrite <- !app_assoc. split; [reflexivity|]. split; [exact Hq|].
        right; right; left. auto. }
    destruct e;
      try (destruct (shutdown env) as [tr3 code]; exact Hsd);
      (exists (tr0 ++ tr1 ++ tr2), []; rewrite app_nil_r;
       split; [reflexivity|]; split; [exact Hq|];
       left; split; [reflexivity | discriminate]).
  - intros tr0 tr1 cfg fc tr2 st' e Hv H0 H1 H2 He. split.
    + unfold Run in H2.
      destruct (loop flags cfg fc encoder st its) as [[tr st1] e1].
      injection H2 as <- <- <-. rewrite He.
      exists ([EvNotify; EvReadAsync] ++ tr). rewrite <- app_assoc.
      reflexivity.
    + unfold main. rewrite Hv, H0. cbn [negb]. rewrite H1, H2.
      unfold shutdown.
      destruct e; try discriminate He;
        destruct (cancelErr env); reflexivity.
Qed.

(** C2.  Single mode requested with an empty identifier map: the program
    never touches the dongle and never starts the producer or reads a block,
    and it exits; unless it was only asked for its version, it stops in
    [HandleFlags] with the configuration error and status 1.  The check
    itself is the one [HandleFlags] was given from the specification; what
    the sources contribute is that [main] calls it before [NewReceiver] and
    [Run]. *)
Theorem single_without_ids_fails_fast flags encoder env (st : RunState FS) its :
  single flags = true -> meterID st = ∅ ->
  let '(tr, code) := main flags encoder env st its in
  forallb (fun e => negb (hardwareEvent e)) tr = true
  /\ code <> None
  /\ (version flags = false ->
      tr = [EvHandleFlags; EvFatal "single requires filterid"]
      /\ code = Some 1).
Proof.
  intros Hs Hz. unfold main.
  destruct (version flags).
  { split; [apply printVersion_quiet|]. split; discriminate. }
  unfold HandleFlags. rewrite Hs, Hz, map_size_empty. simpl.
  repeat split; discriminate.
Qed.
End MainClaims.

(** ** Worked instances *)

Lemma block_without_candidates_witness :
  let '(tr, st', c) :=
    receive (exFlags false) exCfg [MeterIDFilter] exPlain
      exState (exBlock []) in
  logged tr = [] /\ archiveWrites tr = []
  /\ samplePos st' = samplePos exState /\ meterID st' = meterID exState
  /\ (readFails (exBlock []) = false ->
      tr = [EvReadFull] /\ st' = exState /\ c = Continue).
Proof.
  apply (block_without_candidates (exFlags false) exCfg [MeterIDFilter]
           exPlain exState (exBlock [])).
  reflexivity.
Defined.

Lemma rejected_pkt_no_effect_witness :
  handlePkt (exFlags true) exCfg [MeterIDFilter] exPlain
    exState false (exPkt 43)
  = ([], exState, false, PktNext).
Proof.
  apply (rejected_pkt_no_effect (exFlags true) exCfg [MeterIDFilter] exPlain
           exState false (exPkt 43) exStore).
  reflexivity.
Defined.

Lemma single_mode_acceptance_witness :
  let '(tr, st', found', ctl) :=
    handlePkt (exFlags true) exCfg [MeterIDFilter] exPlain
      exState false (exPkt 42) in
  tr = logTrace exCfg exPlain exState (exPkt 42)
  /\ found' = true /\ meterID st' = ∅ /\ ctl = PktNext.
Proof.
  pose proof (single_mode_acceptance (exFlags true) exCfg [MeterIDFilter]
                exPlain exState false (exPkt 42) exStore
                eq_refl eq_refl eq_refl) as H.
  destruct (handlePkt _ _ _ _ _ _ _) as [[[tr st'] found'] ctl] eqn:E.
  vm_compute in E. injection E as <- <- <- <-.
  destruct H as (H1 & _ & H3 & _ & H5).
  repeat split.
Defined.

Lemma archive_once_per_block_witness :
  let '(tr, st', c) :=
    receive (exFlags false) exCfg [MeterIDFilter] exPlain exState
      (exBlock [exPkt 42; exPkt 43; exPkt 42]) in
  archiveWrites tr = [IQ (exBlock [])]
  /\ map Message (logged tr) = [exMsg 42; exMsg 42].
Proof.
  pose proof (archive_once_per_block (exFlags false) exCfg [MeterIDFilter]
                exPlain exState (exBlock [exPkt 42; exPkt 43; exPkt 42]))
    as H.
  destruct (receive _ _ _ _ _ _) as [[tr st'] c] eqn:E.
  vm_compute in E. injection E as <- <- <-.
  destruct H as (_ & _ & H3 & H4). split.
  - apply H3; [discriminate | discriminate | reflexivity].
  - destruct (H4 eq_refl eq_refl) as [_ H5]. rewrite (H5 eq_refl).
    reflexivity.
Defined.


Lemma Length_is_twice_BufferLength_witness :
  let '(tr, _, _) :=
    Run (exFlags false) exCfg [MeterIDFilter] exPlain exState exTurns in
  Forall (fun m => Length m = 2 * 6144) (logged tr).
Proof.
  pose proof (Length_is_twice_BufferLength (exFlags false) exCfg
                [MeterIDFilter] exPlain exState exTurns) as H.
  destruct (Run _ _ _ _ _ _) as [[tr st'] e].
  destruct H as [_ H]. apply H. simpl. lia.
Defined.

Lemma shutdown_order_witness :
  main UniqueFilter MeterIDFilter MeterTypeFilter "" ""
    (exFlags true) exPlain exStart exState exTurns
  = ([EvHandleFlags; EvNewParser; EvOpen; EvSetCenterFreq 912600155;
      EvSetSampleRate 2359296; EvSetTunerGainMode false; EvResetBuffer;
      EvNotify; EvReadAsync; EvReadFull; EvReadFull; EvSeek 0;
      EvEncode (recordFor exCfg exState (exPkt 42)); EvSeek 0;
      EvEncode (recordFor exCfg exState (exPkt 43));
      EvSampleWrite (IQ (exBlock [])); EvPipeClose]
       ++ shutdownDone,
     Some 0).
Proof.
  destruct (shutdown_order UniqueFilter MeterIDFilter MeterTypeFilter "" ""
              (exFlags true) exPlain exStart exState exTurns) as [_ H].
  edestruct H as [_ E]; [reflexivity .. |].
  rewrite E. vm_compute. reflexivity.
Defined.

Lemma single_without_ids_fails_fast_witness :
  main UniqueFilter MeterIDFilter MeterTypeFilter "" ""
    (exFlags true) exPlain exStart exNoIds exTurns
  = ([EvHandleFlags; EvFatal "single requires filterid"], Some 1).
Proof.
  pose proof (single_without_ids_fails_fast UniqueFilter MeterIDFilter
                MeterTypeFilter "" "" (exFlags true) exPlain exStart
                exNoIds exTurns eq_refl eq_refl) as H.
  destruct (main _ _ _ _ _ _ _ _ _ _) as [tr code].
  destruct H as (_ & _ & H). destruct (H eq_refl) as [-> ->]. reflexivity.
Defined.

(** C1 fails when the run dies: a short read ends the process inside
    [Run], and no file is closed, no cancellation is asked for, the device
    is not closed.  And after a normal return, a [CancelAsync] that reports
    an error ends the process before the device is closed. *)
Lemma fatal_read_skips_shutdown :
  (let '(tr, code) :=
     main UniqueFilter MeterIDFilter MeterTypeFilter "" ""
       (exFlags false) exPlain exStart exState [exShortRead] in
   tr = [EvHandleFlags; EvNewParser; EvOpen; EvSetCenterFreq 912600155;
         EvSetSampleRate 2359296; EvSetTunerGainMode false; EvResetBuffer;
         EvNotify; EvReadAsync; EvReadFull;
         EvFatal "Error reading samples: "]
   /\ code = Some 1
   /\ existsb shutdownEvent tr = false)
  /\ (let '(tr, code) :=
        main UniqueFilter MeterIDFilter MeterTypeFilter "" ""
          (exFlags false) exPlain exCancelFails exState [exInterrupt] in
      tr = [EvHandleFlags; EvNewParser; EvOpen; EvSetCenterFreq 912600155;
            EvSetSampleRate 2359296; EvSetTunerGainMode false; EvResetBuffer;
            EvNotify; EvReadAsync; EvPipeClose]
           ++ shutdownCancelFailed "cancel failed"
      /\ code = Some 1).
Proof. vm_compute. repeat split. Qed.

(** C3 fails in single mode with an empty identifier map and no filter: of
    two candidates that both pass the chain, the first is logged and ends
    the packet loop; the second gets no record.  The block is written once
    all the same. *)
Lemma later_candidate_not_logged :
  let '(tr, st', c) :=
    receive (exFlags true) exCfg [] exPlain exNoIds
      (exBlock [exPkt 42; exPkt 43]) in
  map Message (logged tr) = [exMsg 42]
  /\ passing (exFlags true) [] (fcState exNoIds) (meterID exNoIds)
       [exPkt 42; exPkt 43]
     = [exMsg 42; exMsg 43]
  /\ (Match [] (fcState st') (meterID st') (exMsg 43)).1 = true
  /\ archiveWrites tr = [IQ (exBlock [])].
Proof. vm_compute. repeat split. Qed.

(** The same with the identifier map {42} and the identifier filter of the
    specification in the chain: the record for 42 empties the map, 43 goes
    through the now indifferent filter and is logged, and there the packet
    loop stops; 44 gets no record. *)
Lemma later_candidate_not_logged_filtered :
  let '(tr, st', c) :=
    receive (exFlags true) exCfg [MeterIDFilter] exPlain exState
      (exBlock [exPkt 42; exPkt 43; exPkt 44]) in
  map Message (logged tr) = [exMsg 42; exMsg 43]
  /\ passing (exFlags true) [MeterIDFilter] (fcState exState)
       (meterID exState) [exPkt 42; exPkt 43; exPkt 44]
     = [exMsg 42; exMsg 43; exMsg 44]
  /\ (Match [MeterIDFilter] (fcState st') (meterID st') (exMsg 44)).1 = true
  /\ archiveWrites tr = [IQ (exBlock [])].
Proof. vm_compute. repeat split. Qed.

(** C5 fails: single mode, empty identifier map, no filter.  Message 42 is
    not in the map; it passes the chain and is accepted and logged all the
    same; nothing is removed and the packet loop ends. *)
Lemma accepted_while_not_pending :
  meterID exNoIds !! MeterID (exMsg 42) = None
  /\ (Match [] (fcState exNoIds) (meterID exNoIds) (exMsg 42)).1 = true
  /\ handlePkt (exFlags true) exCfg [] exPlain exNoIds false (exPkt 42)
     = ([EvSeek 0; EvEncode (recordFor exCfg exNoIds (exPkt 42))],
        exNoIds, true, PktBreak).
Proof. vm_compute. repeat split. Qed.

(** The same after 42 has emptied the map {42}, with the identifier filter
    of the specification in the chain: 43 is accepted though it was never
    in the map. *)
Lemma accepted_while_not_pending_filtered :
  handlePkt (exFlags true) exCfg [MeterIDFilter] exPlain
    exState false (exPkt 42)
  = ([EvSeek 0; EvEncode (recordFor exCfg exState (exPkt 42))],
     exNoIds, true, PktNext)
  /\ meterID exNoIds !! MeterID (exMsg 43) = None
  /\ handlePkt (exFlags true) exCfg [MeterIDFilter] exPlain
       exNoIds true (exPkt 43)
     = ([EvSeek 0; EvEncode (recordFor exCfg exNoIds (exPkt 43))],
        exNoIds, true, PktBreak).
Proof. vm_compute. repeat split. Qed.

(** C6 fails: with a buffer length of 6144 the record says 12288. *)
Lemma Length_differs_from_BufferLength :
  let '(tr, _, _) :=
    receive (exFlags false) exCfg [MeterIDFilter] exPlain exState
      (exBlock [exPkt 42]) in
  map Length (logged tr) = [12288] /\ BufferLength exCfg = 6144.
Proof. vm_compute. repeat split. Qed.

(** C8 fails: an encoder that is not the XML encoder and declares that it
    needs a separator gets none. *)
Lemma separator_ignores_declared_need :
  let '(tr, _, _) :=
    Run (exFlags false) exCfg [MeterIDFilter] exFramed exState
      [exBlock [exPkt 42]; exInterrupt] in
  needsRecordSeparator exFramed = true
  /\ tr = [EvNotify; EvReadAsync; EvReadFull; EvSeek 0;
           EvEncode (recordFor exCfg exState (exPkt 42));
           EvSampleWrite (IQ (exBlock [])); EvPipeClose]
  /\ sepAfterEach (needsRecordSeparator exFramed) tr = false.
Proof. vm_compute. repeat split. Qed.

(** ** More about startup *)

Section StartupFacts.
Context {FS : Type}.
Variables uniqueFilter meterIDFilter meterTypeFilter : Filter FS.

Local Abbreviation visitFlag :=
  (visitFlag uniqueFilter meterIDFilter meterTypeFilter).
Local Abbreviation filterOf :=
  (filterOf uniqueFilter meterIDFilter meterTypeFilter).
Local Abbreviation NewReceiver :=
  (NewReceiver uniqueFilter meterIDFilter meterTypeFilter).

Lemma visitFlag_step g fc name :
  visitFlag (g, fc) name = (g || isGainFlag name, fc ++ filterOf name).
Proof.
  unfold visitFlag, filterOf, isGainFlag.
  destruct (String.eqb name "gainbyindex" || String.eqb name "tunergainmode"
            || String.eqb name "tunergain" || String.eqb name "agcmode").
  - rewrite orb_true_r, app_nil_r. reflexivity.
  - rewrite orb_false_r.
    destruct (String.eqb name "unique"); [reflexivity|].
    destruct (String.eqb name "filterid"); [reflexivity|].
    destruct (String.eqb name "filtertype"); [reflexivity|].
    rewrite app_nil_r. reflexivity.
Qed.

Lemma visitFlag_fold l : forall g fc,
  fold_left visitFlag l (g, fc)
  = (g || existsb isGainFlag l, fc ++ flat_map filterOf l).
Proof.
  induction l as [|name l IH]; intros g fc;
    cbn [fold_left existsb flat_map].
  - rewrite orb_false_r, app_nil_r. reflexivity.
  - rewrite visitFlag_step, IH, orb_assoc, <- app_assoc. reflexivity.
Qed.

(** X1.  What a successful [NewReceiver] has done.  The parser's configuration
    is the one used; the device calls were made once each in the order
    open, centre frequency, sample rate, gain mode, buffer reset; the tuner
    was put in manual gain exactly when one of the four gain flags was set
    on the command line; the parser logged its settings unless [-quiet];
    and the chain holds, in the order the flags were visited, one filter
    for each of [unique], [filterid] and [filtertype] that was set, and
    nothing for any other flag. *)
Theorem NewReceiver_success flags env tr cfg fc :
  NewReceiver flags env = (tr, Some (cfg, fc)) ->
  newParser env = inr cfg
  /\ fc = flat_map filterOf (visited env)
  /\ tr = [EvNewParser; EvOpen; EvSetCenterFreq (CenterFreq cfg);
           EvSetSampleRate (SampleRate cfg);
           EvSetTunerGainMode (existsb isGainFlag (visited env))]
          ++ (if quiet flags then [] else [EvParserLog])
          ++ [EvResetBuffer].
Proof.
  unfold NewReceiver.
  destruct (newParser env) as [perr|cfg0]; [discriminate|].
  destruct (openErr env); [discriminate|].
  rewrite visitFlag_fold. cbn [orb app].
  destruct (centerFreqErr env); [discriminate|].
  destruct (sampleRateErr env); [discriminate|].
  destruct (gainModeErr env); [discriminate|].
  intros [= <- <- <-]. repeat split.
Qed.

End StartupFacts.

(** ** More about the loop *)

Lemma reads_app tr tr' : reads (tr ++ tr') = (reads tr + reads tr')%nat.
Proof.
  induction tr as [|e tr IH]; simpl; [reflexivity|].
  destruct e; simpl; rewrite ?IH; reflexivity.
Qed.

Lemma opens_app tr tr' : opens (tr ++ tr') = (opens tr + opens tr')%nat.
Proof.
  induction tr as [|e tr IH]; simpl; [reflexivity|].
  destruct e; simpl; rewrite ?IH; reflexivity.
Qed.

Lemma closes_app tr tr' : closes (tr ++ tr') = (closes tr + closes tr')%nat.
Proof.
  induction tr as [|e tr IH]; simpl; [reflexivity|].
  destruct e; simpl; rewrite ?IH; reflexivity.
Qed.

Lemma posAfter_app tr tr' : forall p,
  posAfter p (tr ++ tr') = posAfter (posAfter p tr) tr'.
Proof.
  induction tr as [|e tr IH]; intros p; simpl; [reflexivity|].
  destruct e; simpl; rewrite ?IH; reflexivity.
Qed.

Lemma offsetsTrack_app tr tr' : forall p,
  offsetsTrack p (tr ++ tr')
  = offsetsTrack p tr && offsetsTrack (posAfter p tr) tr'.
Proof.
  induction tr as [|e tr IH]; intros p; simpl; [reflexivity|].
  destruct e; simpl; rewrite ?IH, ?andb_assoc; reflexivity.
Qed.

Lemma loggedIDs_app tr tr' :
  loggedIDs (tr ++ tr') = loggedIDs tr ++ loggedIDs tr'.
Proof. unfold loggedIDs. rewrite logged_app. apply map_app. Qed.

(** A stretch written by the packet loop: no write, so the position stays;
    the offsets track it as soon as every seek and record carries it. *)
Lemma pktEvent_offsets p tr :
  forallb pktEvent tr = true ->
  Forall (fun q => q = p) (seeks tr) ->
  Forall (fun m => Offset m = p) (logged tr) ->
  offsetsTrack p tr = true /\ posAfter p tr = p
  /\ reads tr = 0%nat /\ existsb isTimeLimitPrint tr = false.
Proof.
  induction tr as [|e tr IH]; simpl; [auto|].
  intros [He Htr]%andb_prop.
  destruct e; simpl in *; try discriminate; intros Hs Hl; auto.
  - apply Forall_cons in Hs as [-> Hs].
    rewrite Z.eqb_refl. simpl. auto.
  - apply Forall_cons in Hl as [-> Hl].
    rewrite Z.eqb_refl. simpl. auto.
Qed.

Section LoopMore.
Context {FS : Type}.
Variable flags : Flags.
Variable cfg : Config.
Variable fc : list (Filter FS).
Variable encoder : Encoder.

Local Abbreviation handlePkt := (handlePkt flags cfg fc encoder).
Local Abbreviation rangePkts := (rangePkts flags cfg fc encoder).
Local Abbreviation afterPkts := (afterPkts flags).
Local Abbreviation receive := (receive flags cfg fc encoder).
Local Abbreviation select := (select flags).
Local Abbreviation loop := (loop flags cfg fc encoder).
Local Abbreviation Run := (Run flags cfg fc encoder).
Local Abbreviation archiving := (archiving flags).
Local Abbreviation logTrace := (@logTrace FS cfg encoder).
Local Abbreviation recordFor := (@recordFor FS cfg).

(** The ways [handlePkt] can go, spelled out. *)
Lemma handlePkt_unfold st found e :
  let '(ok, fs') := Match fc (fcState st) (meterID st) (pkt e) in
  let st1 := mkRunState fs' (meterID st) (samplePos st) in
  handlePkt st found e
  = if negb ok then ([], st1, found, PktNext)
    else if encodeFails e then
      ([EvSeek (samplePos st); EvEncode (recordFor st e);
        EvFatal "Error encoding message: "], st1, found, PktFatal)
    else if single flags then
      if (size (meterID st) =? 0)%nat
      then (logTrace st e, st1, true, PktBreak)
      else
        (logTrace st e,
         mkRunState fs' (delete (MeterID (pkt e)) (meterID st))
           (samplePos st),
         true, PktNext)
    else (logTrace st e, st1, true, PktNext).
Proof.
  unfold handlePkt.
  destruct (Match fc (fcState st) (meterID st) (pkt e)). reflexivity.
Qed.

Lemma logTrace_facts (st : RunState FS) (e : PktEnv) :
  logged (logTrace st e) = [recordFor st e]
  /\ seeks (logTrace st e) = [samplePos st]
  /\ existsb isFatal (logTrace st e) = false.
Proof. unfold logTrace. destruct (isXml encoder); repeat split. Qed.

(** What [afterPkts] can do. *)
Lemma afterPkts_cases (s : RunState FS) f it trA (st' : RunState FS) c :
  afterPkts s f it = (trA, st', c) ->
  meterID st' = meterID s /\ fcState st' = fcState s
  /\ ((trA = [] /\ samplePos st' = samplePos s /\ c <> Abort
       /\ (f = false \/ archiving = false))
      \/ (trA = [EvSampleWrite (IQ it)] /\ c <> Abort /\ f = true
          /\ archiving = true /\ writeFails it = false
          /\ samplePos st'
             = wrap_int (samplePos s + Z.of_nat (length (IQ it))))
      \/ (trA = [EvSampleWrite (IQ it);
                 EvFatal "Error writing raw samples to file:"]
          /\ c = Abort /\ f = true /\ archiving = true
          /\ writeFails it = true /\ samplePos st' = samplePos s)).
Proof.
  unfold afterPkts. destruct f.
  - destruct archiving eqn:Ha.
    + destruct (writeFails it) eqn:Hw; intros [= <- <- <-].
      * repeat split. right; right. repeat split.
      * repeat split. right; left. repeat split.
        destruct (_ && _); discriminate.
    + intros [= <- <- <-]. repeat split. left. repeat split; auto.
      destruct (_ && _); discriminate.
  - intros [= <- <- <-]. repeat split. left. repeat split; auto.
Qed.

(** The ways a turn can go, spelled out. *)
Lemma receive_cases st it tr st' c :
  receive st it = (tr, st', c) ->
  (readFails it = true
   /\ tr = [EvReadFull; EvFatal "Error reading samples: "]
   /\ st' = st /\ c = Abort)
  \/ (readFails it = false
      /\ exists trP s1 f1 c1,
           rangePkts st false (pkts it) = (trP, s1, f1, c1)
           /\ ((c1 = PktFatal /\ tr = EvReadFull :: trP
                /\ st' = s1 /\ c = Abort)
               \/ (c1 <> PktFatal
                   /\ exists trA,
                        afterPkts s1 f1 it = (trA, st', c)
                        /\ tr = EvReadFull :: trP ++ trA))).
Proof.
  unfold receive. destruct (readFails it).
  { intros [= <- <- <-]. left. auto. }
  destruct (rangePkts st false (pkts it)) as [[[trP s1] f1] c1] eqn:HP.
  intros H. right. split; [reflexivity|]. exists trP, s1, f1, c1.
  split; [reflexivity|].
  destruct c1.
  - destruct (afterPkts s1 f1 it) as [[trA st2] c2] eqn:HA.
    injection H as <- <- <-. right. split; [discriminate|]. eauto.
  - destruct (afterPkts s1 f1 it) as [[trA st2] c2] eqn:HA.
    injection H as <- <- <-. right. split; [discriminate|]. eauto.
  - injection H as <- <- <-. left. auto.
Qed.

(** Induction over the turns of the loop: [I] is what a turn that goes on
    establishes, [J] what the loop as a whole ends with. *)
Lemma loop_inv
    (I : RunState FS -> Trace -> RunState FS -> Prop)
    (J : RunState FS -> Trace -> RunState FS -> RunEnd -> Prop) :
  (forall st, J st [] st StillRunning) ->
  (forall st it, select it = SelSigint -> J st [] st Interrupted) ->
  (forall st it, select it = SelTLimit ->
     J st [EvPrintln "Time Limit Reached:"] st TimeLimitReached) ->
  (forall st it tr st', receive st it = (tr, st', Continue) -> I st tr st') ->
  (forall st it tr st', receive st it = (tr, st', Return) ->
     J st tr st' Completed) ->
  (forall st it tr st', receive st it = (tr, st', Abort) ->
     J st tr st' Died) ->
  (forall s1 t1 s2 t2 s3 e,
     I s1 t1 s2 -> J s2 t2 s3 e -> J s1 (t1 ++ t2) s3 e) ->
  forall its st tr st' e, loop st its = (tr, st', e) -> J st tr st' e.
Proof.
  intros H0 Hsig Htl Hcont Hret Hab Hcomp.
  induction its as [|it its IH]; intros st tr st' e.
  - intros [= <- <- <-]. apply H0.
  - rewrite loop_cons. destruct (select it) eqn:Hsel.
    + intros [= <- <- <-]. eapply Hsig; eauto.
    + intros [= <- <- <-]. eapply Htl; eauto.
    + destruct (receive st it) as [[tr1 st1] c1] eqn:HR.
      destruct c1.
      * destruct (loop st1 its) as [[tr2 st2] e2] eqn:HL.
        intros [= <- <- <-]. eapply Hcomp; eauto.
      * intros [= <- <- <-]. eauto.
      * intros [= <- <- <-]. eauto.
Qed.

Lemma handlePkt_fatal st found e tr st' found' ctl :
  handlePkt st found e = (tr, st', found', ctl) ->
  (ctl = PktFatal ->
     exists pre s, tr = pre ++ [EvFatal s] /\ existsb isFatal pre = false)
  /\ (ctl <> PktFatal -> existsb isFatal tr = false)
  /\ seeks tr = map Offset (logged tr)
  /\ meterID st' ⊆ meterID st.
Proof.
  pose proof (handlePkt_unfold st found e) as H.
  destruct (Match fc (fcState st) (meterID st) (pkt e)) as [ok fs'].
  cbv zeta in H. rewrite H. clear H.
  destruct (logTrace_facts st e) as (Hl & Hs & Hf).
  destruct ok; cbn [negb].
  - destruct (encodeFails e).
    + intros [= <- <- <- <-]. split; [|split; [congruence|]].
      * intros _. eexists [_; _], _. split; reflexivity.
      * split; reflexivity.
    + destruct (single flags); [destruct (size (meterID st) =? 0)%nat|];
        intros [= <- <- <- <-]; rewrite Hl, Hs;
        (split; [discriminate|]); (split; [auto|]);
        (split; [reflexivity|]); cbn [meterID];
        try reflexivity; apply delete_subseteq.
  - intros [= <- <- <- <-]. split; [discriminate|].
    split; [reflexivity|]. split; reflexivity.
Qed.

Lemma rangePkts_fatal l : forall st found tr st' found' ctl,
  rangePkts st found l = (tr, st', found', ctl) ->
  (ctl = PktFatal ->
     exists pre s, tr = pre ++ [EvFatal s] /\ existsb isFatal pre = false)
  /\ (ctl <> PktFatal -> existsb isFatal tr = false)
  /\ seeks tr = map Offset (logged tr)
  /\ meterID st' ⊆ meterID st.
Proof.
  induction l as [|e l IH]; intros st found tr st' found' ctl.
  - intros [= <- <- <- <-]. split; [discriminate|].
    split; [reflexivity|]. split; reflexivity.
  - rewrite rangePkts_cons.
    destruct (handlePkt st found e) as [[[tr1 s1] f1] c1] eqn:H1.
    apply handlePkt_fatal in H1 as (Ha & Hb & Hc & Hd).
    destruct c1.
    + destruct (rangePkts s1 f1 l) as [[[tr2 s2] f2] c2] eqn:H2.
      apply IH in H2 as (Ha' & Hb' & Hc' & Hd').
      intros [= <- <- <- <-].
      assert (Hq : existsb isFatal tr1 = false) by (apply Hb; discriminate).
      split; [|split; [|split]].
      * intros Hc2. destruct (Ha' Hc2) as (pre & s & -> & Hp).
        exists (tr1 ++ pre), s. rewrite app_assoc, existsb_app, Hq, Hp.
        split; reflexivity.
      * intros Hc2. rewrite existsb_app, Hq, (Hb' Hc2). reflexivity.
      * rewrite seeks_app, logged_app, map_app, Hc, Hc'. reflexivity.
      * etransitivity; eassumption.
    + intros [= <- <- <- <-]. auto.
    + intros [= <- <- <- <-]. auto.
Qed.

Lemma receive_fatal st it tr st' c :
  receive st it = (tr, st', c) ->
  (c = Abort ->
     exists pre s, tr = pre ++ [EvFatal s] /\ existsb isFatal pre = false)
  /\ (c <> Abort -> existsb isFatal tr = false)
  /\ seeks tr = map Offset (logged tr)
  /\ meterID st' ⊆ meterID st.
Proof.
  intros H. apply receive_cases in H
    as [(_ & -> & -> & ->)|(_ & trP & s1 & f1 & c1 & HP & H)].
  { split; [|split; [congruence|split; reflexivity]].
    intros _. exists [EvReadFull], "Error reading samples: ". auto. }
  apply rangePkts_fatal in HP as (Ha & Hb & Hc & Hd).
  destruct H as [(-> & -> & -> & ->)|(Hc1 & trA & HA & ->)].
  - split; [|split; [congruence|split; [simpl; exact Hc | exact Hd]]].
    intros _. destruct (Ha eq_refl) as (pre & s & -> & Hp).
    exists (EvReadFull :: pre), s. auto.
  - specialize (Hb Hc1).
    apply afterPkts_cases in HA as (Hm & _ & HA). rewrite Hm.
    split; [|split; [|split; [|exact Hd]]].
    + intros ->.
      destruct HA as [(_ & _ & ? & _)|[(_ & ? & _)|(-> & _)]];
        try congruence.
      exists (EvReadFull :: trP ++ [EvSampleWrite (IQ it)]),
             "Error writing raw samples to file:".
      split; [simpl; rewrite <- app_assoc; reflexivity|].
      simpl. rewrite existsb_app, Hb. reflexivity.
    + intros Hc'. simpl. rewrite existsb_app, Hb.
      destruct HA as [(-> & _)|[(-> & _)|(_ & ? & _)]];
        try congruence; reflexivity.
    + simpl. rewrite seeks_app, logged_app, map_app, Hc.
      destruct HA as [(-> & _)|[(-> & _)|(-> & _)]]; reflexivity.
Qed.

Lemma receive_offsets st it tr st' c :
  receive st it = (tr, st', c) ->
  offsetsTrack (samplePos st) tr = true
  /\ (c <> Abort -> posAfter (samplePos st) tr = samplePos st')
  /\ reads tr = 1%nat
  /\ (length (archiveWrites tr) <= length (logged tr))%nat
  /\ (length (archiveWrites tr) <= 1)%nat
  /\ existsb isTimeLimitPrint tr = false
  /\ (archiving = false ->
      archiveWrites tr = [] /\ samplePos st' = samplePos st).
Proof.
  intros H. apply receive_shape in H
    as (trP & trA & -> & Hev & _ & _ & Hrec & Hsk & _ & HA).
  assert (Hrec' : Forall (fun m => Offset m = samplePos st) (logged trP))
    by (eapply Forall_impl; [exact Hrec | intros m [? _]; assumption]).
  destruct (pktEvent_offsets _ _ Hev Hsk Hrec') as (Ho & Hp & Hr & Ht).
  pose proof (pktEvent_no_write _ Hev) as Hnw.
  simpl. rewrite offsetsTrack_app, posAfter_app, reads_app, existsb_app,
    archiveWrites_app, logged_app, Ho, Hp, Hr, Ht, Hnw.
  cbn [andb orb app Nat.add].
  destruct HA as [(-> & Hq)|[(-> & Hc & Harch & Hl & Hq)
                             |(-> & -> & Harch & Hl & Hq)]]; simpl.
  - repeat split; auto; lia.
  - rewrite app_nil_r. destruct (logged trP); [congruence|].
    repeat split; auto; simpl; try lia; congruence.
  - rewrite app_nil_r. destruct (logged trP); [congruence|].
    repeat split; auto; simpl; try lia; congruence.
Qed.

Lemma select_no_limit it :
  timeLimit flags = 0 -> select it <> SelTLimit.
Proof.
  intros H. unfold select. rewrite H. simpl.
  destruct (sigintReady it); discriminate.
Qed.

Lemma Run_unfold st its :
  Run st its
  = let '(tr, st1, e) := loop st its in
    ([EvNotify; EvReadAsync] ++ tr
       ++ (if returned e then [EvPipeClose] else []), st1, e).
Proof. reflexivity. Qed.

(** X3.  With no time limit set, the run never ends on the time limit and the
    message about it is never printed. *)
Theorem no_time_limit_never_expires st its :
  timeLimit flags = 0 ->
  let '(tr, _, e) := Run st its in
  e <> TimeLimitReached /\ existsb isTimeLimitPrint tr = false.
Proof.
  intros Hz. rewrite Run_unfold.
  destruct (loop st its) as [[tr st'] e] eqn:HL.
  assert (H : e <> TimeLimitReached /\ existsb isTimeLimitPrint tr = false).
  { revert HL. apply (loop_inv
      (fun _ t _ => existsb isTimeLimitPrint t = false)
      (fun _ t _ e => e <> TimeLimitReached
                      /\ existsb isTimeLimitPrint t = false)).
    - split; [discriminate | reflexivity].
    - split; [discriminate | reflexivity].
    - intros s it Hsel. destruct (select_no_limit it Hz Hsel).
    - intros s it t s' HR. apply receive_offsets in HR. tauto.
    - intros s it t s' HR. apply receive_offsets in HR.
      split; [discriminate | tauto].
    - intros s it t s' HR. apply receive_offsets in HR.
      split; [discriminate | tauto].
    - intros s1 t1 s2 t2 s3 e' H1 [H2 H3].
      rewrite existsb_app, H1, H3. auto. }
  destruct H as [He Ht]. split; [exact He|].
  simpl. rewrite existsb_app, Ht. destruct (returned e); reflexivity.
Qed.

(** X4.  Outside single mode the run never ends by completion and never touches
    the identifier map. *)
Theorem not_single_never_completes st its :
  single flags = false ->
  let '(_, st', e) := Run st its in
  e <> Completed /\ meterID st' = meterID st.
Proof.
  intros Hs. rewrite Run_unfold.
  destruct (loop st its) as [[tr st'] e] eqn:HL.
  assert (Hturn : forall s it t s' c,
            receive s it = (t, s', c) -> c <> Return /\ meterID s' = meterID s).
  { intros s it t s' c HR.
    pose proof (receive_ctl _ _ _ _ _ _ _ _ _ HR) as (Ha & _).
    split; [intros ->; destruct (Ha eq_refl) as [? _]; congruence|].
    apply receive_cases in HR
      as [(_ & _ & -> & _)|(_ & trP & s1 & f1 & c1 & HP & H)];
      [reflexivity|].
    apply rangePkts_found in HP as (_ & _ & _ & Hm & _).
    destruct H as [(_ & _ & -> & _)|(_ & trA & HA & _)]; [auto|].
    apply afterPkts_cases in HA as (-> & _). auto. }
  revert HL. apply (loop_inv
    (fun s _ s' => meterID s' = meterID s)
    (fun s _ s' e => e <> Completed /\ meterID s' = meterID s)).
  - split; [discriminate | reflexivity].
  - split; [discriminate | reflexivity].
  - split; [discriminate | reflexivity].
  - intros s it t s' HR. apply Hturn in HR. tauto.
  - intros s it t s' HR. apply Hturn in HR. destruct HR as [[] _].
    reflexivity.
  - intros s it t s' HR. apply Hturn in HR.
    split; [discriminate | tauto].
  - intros s1 t1 s2 t2 s3 e' H1 [H2 H3]. split; [exact H2 | congruence].
Qed.

(** X5.  Whatever the mode, a run only ever takes entries out of the identifier
    map: what is in it afterwards was in it before, with the same value. *)
Theorem identifier_map_only_shrinks st its :
  let '(_, st', _) := Run st its in meterID st' ⊆ meterID st.
Proof.
  rewrite Run_unfold.
  destruct (loop st its) as [[tr st'] e] eqn:HL.
  revert HL. apply (loop_inv
    (fun s _ s' => meterID s' ⊆ meterID s)
    (fun s _ s' _ => meterID s' ⊆ meterID s)); auto;
    try (intros s it t s' HR; apply receive_fatal in HR; tauto).
  intros s1 t1 s2 t2 s3 _ H1 H2. etransitivity; eassumption.
Qed.

(** X6.  With the samples going to the null device, a run writes nothing to the
    sample file and leaves its position where it was, however many records
    it logs. *)
Theorem null_device_never_written st its :
  archiving = false ->
  let '(tr, st', _) := Run st its in
  archiveWrites tr = [] /\ samplePos st' = samplePos st.
Proof.
  intros Ha. rewrite Run_unfold.
  destruct (loop st its) as [[tr st'] e] eqn:HL.
  assert (H : archiveWrites tr = [] /\ samplePos st' = samplePos st).
  { revert HL. apply (loop_inv
      (fun s t s' => archiveWrites t = [] /\ samplePos s' = samplePos s)
      (fun s t s' _ => archiveWrites t = [] /\ samplePos s' = samplePos s));
      auto; try (intros s it t s' HR; apply receive_offsets in HR;
                 destruct HR as (_ & _ & _ & _ & _ & _ & HR); auto).
    intros s1 t1 s2 t2 s3 _ [H1 H2] [H3 H4].
    rewrite archiveWrites_app, H1, H3. split; [reflexivity | congruence]. }
  destruct H as [H1 H2]. split; [|exact H2].
  simpl. rewrite archiveWrites_app, H1. destruct (returned e); reflexivity.
Qed.

(** X7.  Throughout a run the log and the sample file stay in step.  Every seek
    reports, and every record carries as [Offset], the place where the file
    stands after all the blocks written before it; each record has its own
    seek; and unless the run died the position it ends with is the one the
    writes add up to. *)
Theorem offsets_follow_the_archive st its :
  let '(tr, st', e) := Run st its in
  offsetsTrack (samplePos st) tr = true
  /\ seeks tr = map Offset (logged tr)
  /\ (e <> Died -> posAfter (samplePos st) tr = samplePos st').
Proof.
  rewrite Run_unfold.
  destruct (loop st its) as [[tr st'] e] eqn:HL.
  assert (H : offsetsTrack (samplePos st) tr = true
              /\ seeks tr = map Offset (logged tr)
              /\ (e <> Died -> posAfter (samplePos st) tr = samplePos st')).
  { revert HL. apply (loop_inv
      (fun s t s' => offsetsTrack (samplePos s) t = true
                     /\ seeks t = map Offset (logged t)
                     /\ posAfter (samplePos s) t = samplePos s')
      (fun s t s' e => offsetsTrack (samplePos s) t = true
                       /\ seeks t = map Offset (logged t)
                       /\ (e <> Died ->
                           posAfter (samplePos s) t = samplePos s'))).
    - repeat split.
    - repeat split.
    - repeat split.
    - intros s it t s' HR. pose proof (receive_fatal _ _ _ _ _ HR) as HF.
      apply receive_offsets in HR as (H1 & H2 & _).
      split; [exact H1|]. split; [tauto|]. apply H2. discriminate.
    - intros s it t s' HR. pose proof (receive_fatal _ _ _ _ _ HR) as HF.
      apply receive_offsets in HR as (H1 & H2 & _).
      split; [exact H1|]. split; [tauto|]. intros _. apply H2. discriminate.
    - intros s it t s' HR. pose proof (receive_fatal _ _ _ _ _ HR) as HF.
      apply receive_offsets in HR as (H1 & H2 & _).
      split; [exact H1|]. split; [tauto|]. congruence.
    - intros s1 t1 s2 t2 s3 e' (H1 & H2 & H3) (H4 & H5 & H6).
      rewrite offsetsTrack_app, posAfter_app, seeks_app, logged_app, map_app,
        H1, H2, H3, H4, H5. auto. }
  destruct H as (H1 & H2 & H3).
  simpl. rewrite offsetsTrack_app, posAfter_app, seeks_app, logged_app, map_app.
  rewrite H1, H2.
  destruct (returned e); simpl; rewrite ?app_nil_r; auto.
Qed.

(** X8.  A run never writes more sample windows than it logs records, nor more
    than it reads blocks, and it reads at most one block per turn. *)
Theorem writes_bounded_by_records st its :
  let '(tr, _, _) := Run st its in
  (length (archiveWrites tr) <= length (logged tr))%nat
  /\ (length (archiveWrites tr) <= reads tr)%nat
  /\ (reads tr <= length its)%nat.
Proof.
  rewrite Run_unfold.
  destruct (loop st its) as [[tr st'] e] eqn:HL.
  assert (H : (length (archiveWrites tr) <= length (logged tr))%nat
              /\ (length (archiveWrites tr) <= reads tr)%nat).
  { revert HL. apply (loop_inv
      (fun _ t _ => (length (archiveWrites t) <= length (logged t))%nat
                    /\ (length (archiveWrites t) <= reads t)%nat)
      (fun _ t _ _ => (length (archiveWrites t) <= length (logged t))%nat
                      /\ (length (archiveWrites t) <= reads t)%nat));
      try (simpl; lia);
      try (intros s it t s' HR; apply receive_offsets in HR; lia).
    intros s1 t1 s2 t2 s3 _ [H1 H2] [H3 H4].
    rewrite archiveWrites_app, logged_app, reads_app, !length_app. lia. }
  assert (Hr : (reads tr <= length its)%nat).
  { clear H. revert st tr st' e HL.
    induction its as [|it its IH]; intros st tr st' e.
    - intros [= <- <- <-]. simpl. lia.
    - rewrite loop_cons. destruct (select it).
      + intros [= <- <- <-]. simpl. lia.
      + intros [= <- <- <-]. simpl. lia.
      + destruct (receive st it) as [[tr1 st1] c1] eqn:HR.
        apply receive_offsets in HR as (_ & _ & HR & _).
        destruct c1; try (intros [= <- <- <-]; simpl; lia).
        destruct (loop st1 its) as [[tr2 st2] e2] eqn:HL.
        apply IH in HL. intros [= <- <- <-].
        rewrite reads_app. simpl. lia. }
  destruct H as [H1 H2].
  simpl. rewrite archiveWrites_app, logged_app, reads_app, !length_app.
  destruct (returned e); simpl; lia.
Qed.

(** X9.  A fatal error is the last thing a run does.  A run that died ends its
    trace with the fatal message, the only one in it, and its deferred
    closing of the pipe did not happen; a run that did not die has no fatal
    message at all; a run that returned closed the pipe as its last act. *)
Theorem fatal_is_final st its :
  let '(tr, _, e) := Run st its in
  (e = Died ->
     exists pre s,
       tr = pre ++ [EvFatal s] /\ existsb isFatal pre = false
       /\ ~ In EvPipeClose tr)
  /\ (e <> Died -> existsb isFatal tr = false)
  /\ (returned e = true -> exists pre, tr = pre ++ [EvPipeClose]).
Proof.
  rewrite Run_unfold.
  destruct (loop st its) as [[tr st'] e] eqn:HL.
  pose proof (loop_events _ _ _ _ _ _ _ _ _ HL) as (Hev & _).
  assert (H : (e = Died ->
                 exists pre s,
                   tr = pre ++ [EvFatal s] /\ existsb isFatal pre = false)
              /\ (e <> Died -> existsb isFatal tr = false)).
  { revert HL. apply (loop_inv
      (fun _ t _ => existsb isFatal t = false)
      (fun _ t _ e =>
         (e = Died ->
            exists pre s,
              t = pre ++ [EvFatal s] /\ existsb isFatal pre = false)
         /\ (e <> Died -> existsb isFatal t = false)));
      try (split; [discriminate | reflexivity]).
    - intros s it t s' HR. apply receive_fatal in HR as (_ & HR & _).
      apply HR. discriminate.
    - intros s it t s' HR. apply receive_fatal in HR as (_ & HR & _).
      split; [discriminate|]. intros _. apply HR. discriminate.
    - intros s it t s' HR. apply receive_fatal in HR as (HR & _).
      split; [auto | congruence].
    - intros s1 t1 s2 t2 s3 e' H1 [H2 H3]. split.
      + intros He. destruct (H2 He) as (pre & s & -> & Hp).
        exists (t1 ++ pre), s. rewrite app_assoc, existsb_app, H1, Hp. auto.
      + intros He. rewrite existsb_app, H1, (H3 He). reflexivity. }
  destruct H as [H1 H2]. split; [|split].
  - intros ->. destruct (H1 eq_refl) as (pre & s & -> & Hp).
    exists ([EvNotify; EvReadAsync] ++ pre), s. cbn [returned].
    rewrite app_nil_r. split; [rewrite <- app_assoc; reflexivity|].
    split; [simpl; exact Hp|].
    intros [Hin|[Hin|Hin]]; try discriminate.
    apply (proj1 (forallb_forall _ _) Hev) in Hin. discriminate.
  - intros He. simpl. rewrite existsb_app, (H2 He).
    destruct (returned e); reflexivity.
  - intros ->. exists ([EvNotify; EvReadAsync] ++ tr).
    rewrite <- app_assoc. reflexivity.
Qed.

(** X10.  When a turn dies on the read or on an encode, the samples of the block
    are not written, even if records of that block were logged before the
    failure; the position of the sample file stays. *)
Theorem failed_turn_writes_nothing st it :
  writeFails it = false ->
  let '(tr, st', c) := receive st it in
  c = Abort -> archiveWrites tr = [] /\ samplePos st' = samplePos st.
Proof.
  intros Hw. destruct (receive st it) as [[tr st'] c] eqn:HR. intros ->.
  apply receive_cases in HR
    as [(_ & -> & -> & _)|(_ & trP & s1 & f1 & c1 & HP & H)];
    [split; reflexivity|].
  pose proof (rangePkts_samplePos _ _ _ _ _ _ _ _ _ _ _ HP) as Hpos.
  apply rangePkts_events in HP as (Hev & _).
  apply pktEvent_no_write in Hev.
  destruct H as [(_ & -> & -> & _)|(_ & trA & HA & ->)].
  - simpl. auto.
  - apply afterPkts_cases in HA
      as (_ & _ & [(_ & _ & ? & _)|[(_ & ? & _)|(_ & _ & _ & _ & ? & _)]]);
      congruence.
Qed.

Lemma rangePkts_oneshot l : forall st found tr st' found' ctl,
  single flags = true -> meterID st = ∅ ->
  rangePkts st found l = (tr, st', found', ctl) ->
  meterID st' = ∅
  /\ ((logged tr = [] /\ found' = found /\ ctl = PktNext)
      \/ (exists m, logged tr = [m]
                    /\ (ctl = PktBreak /\ found' = true \/ ctl = PktFatal))).
Proof.
  induction l as [|e l IH]; intros st found tr st' found' ctl Hs Hz.
  - intros [= <- <- <- <-]. auto.
  - rewrite rangePkts_cons.
    pose proof (handlePkt_unfold st found e) as H.
    destruct (Match fc (fcState st) (meterID st) (pkt e)) as [ok fs'].
    cbv zeta in H. rewrite H. clear H.
    destruct (logTrace_facts st e) as (Hl & _).
    rewrite Hs, Hz, map_size_empty. cbn [Nat.eqb].
    destruct ok; cbn [negb].
    + destruct (encodeFails e); intros [= <- <- <- <-]; cbn [meterID].
      * split; [reflexivity|]. right. eexists. split; [reflexivity | auto].
      * split; [reflexivity|]. right. rewrite Hl. eauto.
    + destruct (rangePkts _ found l) as [[[tr2 s2] f2] c2] eqn:H2.
      apply IH in H2; [|exact Hs|reflexivity].
      intros [= <- <- <- <-]. exact H2.
Qed.

(** X11.  Single mode with nothing to wait for: one shot.  Started with an empty
    identifier map, a run logs at most one record; it ends by completion
    exactly with the block of that record, and as long as no message passes
    the filters it logs nothing and goes on. *)
Theorem single_without_ids_is_one_shot st its :
  single flags = true -> meterID st = ∅ ->
  let '(tr, st', e) := Run st its in
  meterID st' = ∅
  /\ (length (logged tr) <= 1)%nat
  /\ (e = Completed -> length (logged tr) = 1%nat)
  /\ (e <> Completed -> e <> Died -> logged tr = []).
Proof.
  intros Hs Hz. rewrite Run_unfold.
  destruct (loop st its) as [[tr st'] e] eqn:HL.
  assert (Hturn : forall s it t s' c,
    receive s it = (t, s', c) -> meterID s = ∅ ->
    meterID s' = ∅
    /\ (length (logged t) <= 1)%nat
    /\ (c = Continue -> logged t = [])
    /\ (c = Return -> length (logged t) = 1%nat)).
  { intros s it t s' c HR Hse.
    apply receive_cases in HR
      as [(_ & -> & -> & ->)|(_ & trP & s1 & f1 & c1 & HP & H)].
    { repeat split; auto; discriminate. }
    apply rangePkts_oneshot in HP as (Hs1 & HP); [|exact Hs|exact Hse].
    destruct H as [(-> & -> & -> & ->)|(Hc1 & trA & HA & ->)].
    - split; [exact Hs1|]. simpl.
      destruct HP as [(-> & _)|(m & -> & _)]; repeat split;
        simpl; auto; discriminate.
    - pose proof HA as HA'. unfold afterPkts in HA'.
      apply afterPkts_cases in HA as (Hm & _ & HA).
      rewrite Hm. split; [exact Hs1|].
      assert (HlA : logged trA = [])
        by (destruct HA as [(-> & _)|[(-> & _)|(-> & _)]]; reflexivity).
      simpl. rewrite logged_app, HlA, app_nil_r.
      destruct HP as [(-> & -> & _)|(m & -> & [(_ & ->)|?])];
        [| |contradiction].
      + injection HA' as <- <- <-. repeat split; auto; discriminate.
      + rewrite Hs, Hs1, map_size_empty in HA'. cbn [andb Nat.eqb] in HA'.
        destruct archiving; [destruct (writeFails it)|];
          injection HA' as <- <- <-; repeat split; simpl; auto; discriminate. }
  assert (H : meterID st = ∅ ->
              meterID st' = ∅
              /\ (length (logged tr) <= 1)%nat
              /\ (e = Completed -> length (logged tr) = 1%nat)
              /\ (e <> Completed -> e <> Died -> logged tr = [])).
  { revert HL. apply (loop_inv
      (fun s t s' => meterID s = ∅ -> meterID s' = ∅ /\ logged t = [])
      (fun s t s' e =>
         meterID s = ∅ ->
         meterID s' = ∅
         /\ (length (logged t) <= 1)%nat
         /\ (e = Completed -> length (logged t) = 1%nat)
         /\ (e <> Completed -> e <> Died -> logged t = [])));
      try (intros; repeat split; simpl; auto; discriminate).
    - intros s it t s' HR Hse. destruct (Hturn _ _ _ _ _ HR Hse) as (?&?&?&?).
      auto.
    - intros s it t s' HR Hse. destruct (Hturn _ _ _ _ _ HR Hse) as (?&?&?&?).
      repeat split; auto. congruence.
    - intros s it t s' HR Hse. destruct (Hturn _ _ _ _ _ HR Hse) as (?&?&?&?).
      repeat split; auto; congruence.
    - intros s1 t1 s2 t2 s3 e' H1 H2 Hse.
      destruct (H1 Hse) as [Hs2 Hl1]. destruct (H2 Hs2) as (?&?&?&?).
      rewrite logged_app, Hl1. auto. }
  destruct (H Hz) as (H1 & H2 & H3 & H4).
  assert (HR : logged ([EvNotify; EvReadAsync] ++ tr
                       ++ (if returned e then [EvPipeClose] else []))
               = logged tr).
  { simpl. rewrite logged_app. destruct (returned e); apply app_nil_r. }
  rewrite HR. auto.
Qed.

Lemma onceEach_nil (m : UintMap) : onceEach m [] m.
Proof.
  split; [split|].
  - intros id Hin. inversion Hin.
  - constructor.
  - intros id. reflexivity.
Qed.

Lemma onceEachSoFar_app (m m1 : UintMap) t1 t2 :
  onceEach m t1 m1 -> onceEachSoFar m1 t2 -> onceEachSoFar m (t1 ++ t2).
Proof.
  intros [[Ha Hb] Hc] [Ha' Hb']. split.
  - intros id. rewrite loggedIDs_app, elem_of_app. intros [Hin|Hin]; [auto|].
    specialize (Ha' id Hin). rewrite Hc in Ha'.
    destruct (bool_decide (id ∈ loggedIDs t1)); [|exact Ha'].
    destruct Ha' as [? ?]. discriminate.
  - rewrite loggedIDs_app. apply NoDup_app. split; [exact Hb|].
    split; [|exact Hb'].
    intros id Hin Hin'. specialize (Ha' id Hin'). rewrite Hc in Ha'.
    rewrite bool_decide_eq_true_2 in Ha' by exact Hin.
    destruct Ha' as [? ?]. discriminate.
Qed.

Lemma onceEach_app (m m1 m2 : UintMap) t1 t2 :
  onceEach m t1 m1 -> onceEach m1 t2 m2 -> onceEach m (t1 ++ t2) m2.
Proof.
  intros H1 [H2 Hc']. split; [eapply onceEachSoFar_app; eassumption|].
  destruct H1 as [_ Hc]. intros id.
  rewrite Hc', Hc, loggedIDs_app.
  destruct (bool_decide (id ∈ loggedIDs t2)) eqn:E2.
  - apply bool_decide_eq_true in E2.
    rewrite bool_decide_eq_true_2; [reflexivity|].
    apply elem_of_app. auto.
  - apply bool_decide_eq_false in E2.
    destruct (bool_decide (id ∈ loggedIDs t1)) eqn:E1.
    + apply bool_decide_eq_true in E1.
      rewrite bool_decide_eq_true_2; [reflexivity|].
      apply elem_of_app. auto.
    + apply bool_decide_eq_false in E1.
      rewrite bool_decide_eq_false_2; [reflexivity|].
      rewrite elem_of_app. tauto.
Qed.

Lemma onceEach_neutral (m m' : UintMap) tr tr' :
  logged tr' = logged tr ->
  (onceEach m tr m' -> onceEach m tr' m')
  /\ (onceEachSoFar m tr -> onceEachSoFar m tr').
Proof.
  intros H. unfold onceEach, onceEachSoFar, loggedIDs. rewrite H. auto.
Qed.

Section Membership.
(** The chain lets a message through only if its identifier is in the map,
    as a chain holding an identifier filter of that kind does. *)
Hypothesis chain_checks_map : forall fs ids m fs',
  Match fc fs ids m = (true, fs') -> is_Some (ids !! MeterID m).

Lemma rangePkts_onceEach l : forall st found tr st' found' ctl,
  single flags = true ->
  rangePkts st found l = (tr, st', found', ctl) ->
  onceEachSoFar (meterID st) tr
  /\ (ctl <> PktFatal -> onceEach (meterID st) tr (meterID st')).
Proof.
  induction l as [|e l IH]; intros st found tr st' found' ctl Hs.
  - intros [= <- <- <- <-]. split; [|intros _]; apply onceEach_nil.
  - rewrite rangePkts_cons.
    pose proof (handlePkt_unfold st found e) as H.
    pose proof (chain_checks_map (fcState st) (meterID st) (pkt e)) as Hin.
    destruct (Match fc (fcState st) (meterID st) (pkt e)) as [ok fs'].
    cbv zeta in H. rewrite H. clear H.
    destruct (logTrace_facts st e) as (Hl & _).
    rewrite Hs. destruct ok; cbn [negb].
    + specialize (Hin fs' eq_refl).
      assert (Hone : forall t, logged t = [recordFor st e] ->
                onceEach (meterID st) t
                  (delete (MeterID (pkt e)) (meterID st))).
      { intros t Ht. split; [split|]; unfold loggedIDs; rewrite Ht; simpl.
        - intros id ->%list_elem_of_singleton. exact Hin.
        - apply NoDup_singleton.
        - intros id. rewrite lookup_delete.
          destruct (decide (MeterID (pkt e) = id)) as [->|Hne].
          + rewrite bool_decide_eq_true_2; [reflexivity|].
            apply list_elem_of_singleton. reflexivity.
          + rewrite bool_decide_eq_false_2; [reflexivity|].
            intros ->%list_elem_of_singleton. congruence. }
      destruct (encodeFails e).
      * intros [= <- <- <- <-]. split; [|congruence].
        apply (Hone [EvEncode (recordFor st e)] eq_refl).
      * destruct (size (meterID st) =? 0)%nat eqn:Hsz.
        { apply Nat.eqb_eq, map_size_empty_iff in Hsz.
          rewrite Hsz, lookup_empty in Hin. destruct Hin as [? ?].
          discriminate. }
        destruct (rangePkts _ true l) as [[[tr2 s2] f2] c2] eqn:H2.
        apply IH in H2 as [Hw Hf]; [|exact Hs]. cbn [meterID] in Hw, Hf.
        intros [= <- <- <- <-]. specialize (Hone _ Hl). split.
        -- exact (onceEachSoFar_app _ _ (logTrace st e) tr2 Hone Hw).
        -- intros Hc.
           exact (onceEach_app _ _ _ (logTrace st e) tr2 Hone (Hf Hc)).
    + destruct (rangePkts _ found l) as [[[tr2 s2] f2] c2] eqn:H2.
      apply IH in H2; [|exact Hs].
      intros [= <- <- <- <-]. exact H2.
Qed.

Lemma receive_onceEach st it tr st' c :
  single flags = true ->
  receive st it = (tr, st', c) ->
  onceEachSoFar (meterID st) tr
  /\ (c <> Abort -> onceEach (meterID st) tr (meterID st')).
Proof.
  intros Hs HR.
  apply receive_cases in HR
    as [(_ & -> & -> & ->)|(_ & trP & s1 & f1 & c1 & HP & H)].
  { split; [apply (onceEach_neutral _ (meterID st) []);
            [reflexivity | apply onceEach_nil] | congruence]. }
  apply rangePkts_onceEach in HP as [Hw Hf]; [|exact Hs].
  destruct H as [(-> & -> & -> & ->)|(Hc1 & trA & HA & ->)].
  - split; [|congruence].
    apply (onceEach_neutral _ (meterID s1) trP); [reflexivity | exact Hw].
  - apply afterPkts_cases in HA as (Hm & _ & HA). rewrite Hm.
    assert (HlA : logged (EvReadFull :: trP ++ trA) = logged trP).
    { simpl. rewrite logged_app.
      destruct HA as [(-> & _)|[(-> & _)|(-> & _)]]; apply app_nil_r. }
    destruct (onceEach_neutral (meterID st) (meterID s1) _ _ HlA) as [H1 H2].
    split; [apply H2, Hw | intros _; apply H1, Hf, Hc1].
Qed.

(** X12.  Single mode with a chain that checks the map: one observation per
    identifier.  Over a whole run no identifier is logged twice, every
    identifier logged was in the map the run started with, and unless the
    run died the map it ends with is the starting one without exactly the
    identifiers logged. *)
Theorem each_identifier_logged_once st its :
  single flags = true ->
  let '(tr, st', e) := Run st its in
  NoDup (loggedIDs tr)
  /\ (forall id, id ∈ loggedIDs tr -> is_Some (meterID st !! id))
  /\ (e <> Died ->
      forall id,
        meterID st' !! id
        = if bool_decide (id ∈ loggedIDs tr) then None
          else meterID st !! id).
Proof.
  intros Hs. rewrite Run_unfold.
  destruct (loop st its) as [[tr st'] e] eqn:HL.
  assert (H : onceEachSoFar (meterID st) tr
              /\ (e <> Died -> onceEach (meterID st) tr (meterID st'))).
  { revert HL. apply (loop_inv
      (fun s t s' => onceEach (meterID s) t (meterID s'))
      (fun s t s' e =>
         onceEachSoFar (meterID s) t
         /\ (e <> Died -> onceEach (meterID s) t (meterID s')))).
    - intros s. split; [|intros _]; apply onceEach_nil.
    - intros s _ _. split; [|intros _]; apply onceEach_nil.
    - intros s _ _. split; [|intros _];
        apply (onceEach_neutral _ (meterID s) []);
        try reflexivity; apply onceEach_nil.
    - intros s it t s' HR.
      apply receive_onceEach in HR as [_ HR]; [|exact Hs].
      apply HR. discriminate.
    - intros s it t s' HR.
      apply receive_onceEach in HR as [Hw HR]; [|exact Hs].
      split; [exact Hw|]. intros _. apply HR. discriminate.
    - intros s it t s' HR.
      apply receive_onceEach in HR as [Hw HR]; [|exact Hs].
      split; [exact Hw | congruence].
    - intros s1 t1 s2 t2 s3 e' H1 [H2 H3]. split.
      + eapply onceEachSoFar_app; eassumption.
      + intros He. eapply onceEach_app; eauto. }
  assert (HR : logged ([EvNotify; EvReadAsync] ++ tr
                       ++ (if returned e then [EvPipeClose] else []))
               = logged tr).
  { simpl. rewrite logged_app. destruct (returned e); apply app_nil_r. }
  destruct (onceEach_neutral (meterID st) (meterID st') _ _ HR) as [H1 H2].
  destruct H as [Hw Hf]. apply H2 in Hw. destruct Hw as [Ha Hb].
  split; [exact Hb|]. split; [exact Ha|].
  intros He. apply H1 in Hf; [|exact He]. apply Hf.
Qed.
End Membership.
End LoopMore.

(** ** The turns of the loop *)

Section TurnFacts.
Context {FS : Type}.
Variable flags : Flags.
Variable cfg : Config.
Variable fc : list (Filter FS).
Variable encoder : Encoder.

Local Abbreviation handlePkt := (handlePkt flags cfg fc encoder).
Local Abbreviation rangePkts := (rangePkts flags cfg fc encoder).
Local Abbreviation receive := (receive flags cfg fc encoder).
Local Abbreviation select := (select flags).
Local Abbreviation loop := (loop flags cfg fc encoder).
Local Abbreviation Run := (Run flags cfg fc encoder).
Local Abbreviation stateAt := (stateAt flags cfg fc encoder).

(** X13.  The stop conditions are looked at before the read.  If the loop gets
    to its [k]-th turn (from 0) and finds a signal pending or the time
    limit expired, it returns there: it has read exactly [k] blocks, one in
    each earlier turn, and hands back the state that turn began with. *)
Theorem stop_seen_before_read its : forall st k sk it,
  stateAt st its k = Some sk -> its !! k = Some it ->
  select it <> SelDefault ->
  let '(tr, st', e) := loop st its in
  reads tr = k /\ st' = sk
  /\ e = match select it with
         | SelSigint => Interrupted
         | _ => TimeLimitReached
         end.
Proof.
  induction its as [|it0 its IH]; intros st k sk it HS HL Hsel;
    [destruct k; discriminate|].
  destruct k as [|k].
  - injection HS as ->. injection HL as ->.
    rewrite loop_cons.
    destruct (select it); [auto | auto | congruence].
  - simpl in HS, HL. rewrite loop_cons.
    destruct (select it0); try discriminate.
    destruct (receive st it0) as [[tr1 st1] c1] eqn:HR.
    destruct c1; try discriminate.
    apply receive_offsets in HR as (_ & _ & Hr & _).
    specialize (IH _ _ _ _ HS HL Hsel).
    destruct (loop st1 its) as [[tr2 st2] e2].
    destruct IH as (H1 & H2 & H3).
    rewrite reads_app, Hr, H1. auto.
Qed.

Lemma handlePkt_source st found e tr st' found' ctl :
  handlePkt st found e = (tr, st', found', ctl) ->
  logged tr = [] \/ exists m, logged tr = [m]
                              /\ Message m = pkt e /\ Time m = now e.
Proof.
  unfold handlePkt, logTrace.
  destruct (Match fc (fcState st) (meterID st) (pkt e)) as [ok fs'].
  destruct ok; cbn [negb]; [|intros [= <- <- <- <-]; auto].
  destruct (encodeFails e);
    [|destruct (single flags); [destruct (size _ =? 0)%nat|]];
    intros [= <- <- <- <-]; right; eexists;
    (split; [destruct (isXml encoder); reflexivity|]); split; reflexivity.
Qed.

Lemma rangePkts_source l : forall st found tr st' found' ctl,
  rangePkts st found l = (tr, st', found', ctl) ->
  Forall (fun m => exists e, e ∈ l /\ Message m = pkt e /\ Time m = now e)
    (logged tr)
  /\ (length (logged tr) <= length l)%nat.
Proof.
  induction l as [|e l IH]; intros st found tr st' found' ctl.
  - intros [= <- <- <- <-]. split; [constructor | simpl; lia].
  - rewrite rangePkts_cons.
    destruct (handlePkt st found e) as [[[tr1 s1] f1] c1] eqn:H1.
    apply handlePkt_source in H1.
    assert (Hhead :
      Forall (fun m => exists e', e' ∈ e :: l
                                  /\ Message m = pkt e' /\ Time m = now e')
        (logged tr1)
      /\ (length (logged tr1) <= 1)%nat).
    { destruct H1 as [->|(m & -> & Hm & Ht)]; [split; [constructor|simpl; lia]|].
      split; [|simpl; lia]. repeat constructor.
      exists e. split; [left | auto]. }
    destruct Hhead as [Hh Hn].
    destruct c1; try (intros [= <- <- <- <-]; split; [exact Hh|simpl; lia]).
    destruct (rangePkts s1 f1 l) as [[[tr2 s2] f2] c2] eqn:H2.
    apply IH in H2 as [Ht Hl]. intros [= <- <- <- <-].
    rewrite logged_app, length_app. split; [|simpl; lia].
    apply Forall_app. split; [exact Hh|].
    eapply Forall_impl; [exact Ht|].
    intros m (e' & Hin & Hm). exists e'. split; [right; exact Hin | exact Hm].
Qed.

(** X14.  The log holds nothing but decoded packets.  Every record of a run is
    for a packet the parser returned in one of the turns, stamped with the
    time read for that packet, and there are no more records than
    packets. *)
Theorem records_come_from_packets its : forall st,
  let '(tr, _, _) := Run st its in
  Forall (fun m => exists it e,
            it ∈ its /\ e ∈ pkts it /\ Message m = pkt e /\ Time m = now e)
    (logged tr)
  /\ (length (logged tr) <= length (concat (map pkts its)))%nat.
Proof.
  intros st. unfold Run.
  destruct (loop st its) as [[tr st'] e] eqn:HL.
  assert (H :
    Forall (fun m => exists it e,
              it ∈ its /\ e ∈ pkts it /\ Message m = pkt e /\ Time m = now e)
      (logged tr)
    /\ (length (logged tr) <= length (concat (map pkts its)))%nat).
  { revert st tr st' e HL.
    induction its as [|it its IH]; intros st tr st' e.
    - intros [= <- <- <-]. split; [constructor | simpl; lia].
    - rewrite loop_cons. destruct (select it).
      + intros [= <- <- <-]. split; [constructor | simpl; lia].
      + intros [= <- <- <-]. split; [constructor | simpl; lia].
      + destruct (receive st it) as [[tr1 st1] c1] eqn:HR.
        assert (Hturn :
          Forall (fun m => exists it' e,
                    it' ∈ it :: its /\ e ∈ pkts it'
                    /\ Message m = pkt e /\ Time m = now e) (logged tr1)
          /\ (length (logged tr1) <= length (pkts it))%nat).
        { unfold receive in HR. destruct (readFails it).
          { injection HR as <- <- <-. split; [constructor | simpl; lia]. }
          destruct (rangePkts st false (pkts it)) as [[[trP s1] f1] c1'] eqn:HP.
          apply rangePkts_source in HP as [HF HN].
          assert (Hl : logged tr1 = logged trP).
          { destruct c1'; [| |injection HR as <- <- <-; reflexivity];
              unfold afterPkts in HR;
              destruct f1;
              [destruct (archiving flags); [destruct (writeFails it)|]|
              |destruct (archiving flags); [destruct (writeFails it)|]|];
              injection HR as <- <- <-; simpl;
              rewrite logged_app; apply app_nil_r. }
          rewrite Hl. split; [|exact HN].
          eapply Forall_impl; [exact HF|].
          intros m (e' & Hin & Hm). exists it, e'.
          split; [left | auto]. }
        destruct Hturn as [HF HN].
        cbn [map concat]. rewrite length_app.
        destruct c1; try (intros [= <- <- <-]; split; [exact HF | lia]).
        destruct (loop st1 its) as [[tr2 st2] e2] eqn:HL.
        apply IH in HL as [HF' HN']. intros [= <- <- <-].
        rewrite logged_app, length_app. split; [|lia].
        apply Forall_app. split; [exact HF|].
        eapply Forall_impl; [exact HF'|].
        intros m (it' & e' & Hin & Hm). exists it', e'.
        split; [right; exact Hin | exact Hm]. }
  assert (HR : logged ([EvNotify; EvReadAsync] ++ tr
                       ++ (if returned e then [EvPipeClose] else []))
               = logged tr).
  { simpl. rewrite logged_app. destruct (returned e); apply app_nil_r. }
  rewrite HR. exact H.
Qed.
End TurnFacts.

(** ** More about the whole program *)

Lemma loopEvent_no_device tr :
  forallb loopEvent tr = true ->
  opens tr = 0%nat /\ closes tr = 0%nat /\ ~ In EvReadAsync tr.
Proof.
  induction tr as [|e tr IH]; simpl; [auto|].
  intros [He Htr]%andb_prop. destruct (IH Htr) as (H1 & H2 & H3).
  destruct e; simpl in *; try discriminate; repeat split; auto;
    intros [?|?]; auto; discriminate.
Qed.

Section MainMore.
Context {FS : Type}.
Variables uniqueFilter meterIDFilter meterTypeFilter : Filter FS.
Variables buildDate commitHash : string.

Local Abbreviation NewReceiver :=
  (NewReceiver uniqueFilter meterIDFilter meterTypeFilter).
Local Abbreviation main :=
  (main uniqueFilter meterIDFilter meterTypeFilter buildDate commitHash).

Lemma NewReceiver_device flags env :
  let '(tr, r) := NewReceiver flags env in
  (opens tr <= 1)%nat /\ closes tr = 0%nat /\ ~ In EvReadAsync tr
  /\ reads tr = 0%nat
  /\ (r <> None -> opens tr = 1%nat)
  /\ (forall cfg, newParser env = inr cfg -> opens tr = 1%nat).
Proof.
  unfold NewReceiver.
  assert (Hin : forall tr : Trace,
            forallb (fun e => match e with EvReadAsync => false | _ => true end)
              tr = true -> ~ In EvReadAsync tr).
  { intros tr H Hi. apply (proj1 (forallb_forall _ _) H) in Hi.
    discriminate. }
  assert (Hcase : forall (tr : Trace) (r : option (Config * list (Filter FS))),
            (opens tr <= 1)%nat -> closes tr = 0%nat -> reads tr = 0%nat ->
            forallb (fun e => match e with EvReadAsync => false | _ => true end)
              tr = true ->
            (r <> None -> opens tr = 1%nat) ->
            (forall cfg, newParser env = inr cfg -> opens tr = 1%nat) ->
            (opens tr <= 1)%nat /\ closes tr = 0%nat /\ ~ In EvReadAsync tr
            /\ reads tr = 0%nat
            /\ (r <> None -> opens tr = 1%nat)
            /\ (forall cfg, newParser env = inr cfg -> opens tr = 1%nat)).
  { intros tr r H1 H2 H3 H4 H5 H6. repeat split; auto. }
  destruct (newParser env) as [perr|cfg0].
  { apply Hcase; try reflexivity; simpl; try lia; congruence. }
  destruct (openErr env);
    [apply Hcase; try reflexivity; simpl; try lia; congruence|].
  destruct (fold_left _ _ _) as [g fc].
  destruct (centerFreqErr env);
    [apply Hcase; try reflexivity; simpl; try lia; congruence|].
  destruct (sampleRateErr env);
    [apply Hcase; try reflexivity; simpl; try lia; congruence|].
  destruct (gainModeErr env);
    [apply Hcase; try reflexivity; simpl; try lia; congruence|].
  destruct (quiet flags); apply Hcase; try reflexivity; simpl; lia.
Qed.

Lemma Run_device flags cfg fc encoder (st : RunState FS) its :
  let '(tr, _, _) := Run flags cfg fc encoder st its in
  opens tr = 0%nat /\ closes tr = 0%nat.
Proof.
  unfold Run. destruct (loop flags cfg fc encoder st its) as [[tr st'] e] eqn:HL.
  apply loop_events in HL as (Hev & _).
  apply loopEvent_no_device in Hev as (H1 & H2 & _).
  simpl. rewrite opens_app, closes_app, H1, H2.
  destruct (returned e); auto.
Qed.

(** X15.  The device over the life of the program: opened at most once, closed
    at most once and only if it was opened; it is closed exactly when the
    program, not asked for its version, exits with status 0. *)
Theorem device_opened_and_closed_once flags encoder env (st : RunState FS) its :
  let '(tr, code) := main flags encoder env st its in
  (opens tr <= 1)%nat /\ (closes tr <= opens tr)%nat
  /\ (closes tr = 1%nat <-> code = Some 0 /\ version flags = false).
Proof.
  unfold main.
  destruct (version flags) eqn:Hv.
  { unfold printVersion. destruct (_ || _); simpl;
      (split; [lia|]); (split; [lia|]);
      (split; [discriminate | intros [_ ?]; discriminate]). }
  unfold HandleFlags. destruct (_ && _); cbn [negb].
  { simpl. split; [lia|]. split; [lia|].
    split; [discriminate | intros [? _]; discriminate]. }
  pose proof (NewReceiver_device flags env) as HN.
  destruct (NewReceiver flags env) as [tr1 [[cfg fc]|]];
    destruct HN as (Ho & Hc & _ & _ & Hs & _).
  2:{ change ([EvHandleFlags] ++ tr1) with (EvHandleFlags :: tr1). simpl.
      rewrite Hc. split; [lia|]. split; [lia|].
      split; [discriminate | intros [? _]; discriminate]. }
  specialize (Hs ltac:(discriminate)).
  pose proof (Run_device flags cfg fc encoder st its) as HR.
  destruct (Run flags cfg fc encoder st its) as [[tr2 st'] e].
  destruct HR as [Ho2 Hc2].
  assert (Hpre : opens ([EvHandleFlags] ++ tr1 ++ tr2) = 1%nat
                 /\ closes ([EvHandleFlags] ++ tr1 ++ tr2) = 0%nat).
  { simpl. rewrite opens_app, closes_app. lia. }
  destruct Hpre as [Hpo Hpc].
  assert (Hsd : let '(tr3, code) := shutdown env in
    (opens ([EvHandleFlags] ++ tr1 ++ tr2 ++ tr3) <= 1)%nat
    /\ (closes ([EvHandleFlags] ++ tr1 ++ tr2 ++ tr3)
        <= opens ([EvHandleFlags] ++ tr1 ++ tr2 ++ tr3))%nat
    /\ (closes ([EvHandleFlags] ++ tr1 ++ tr2 ++ tr3) = 1%nat
        <-> Some code = Some 0 /\ false = false)).
  { unfold shutdown. destruct (cancelErr env);
      rewrite !app_assoc, opens_app, closes_app, <- !app_assoc, Hpo, Hpc;
      simpl; (split; [lia|]); (split; [lia|]); split; auto;
      try discriminate; intros [? _]; discriminate. }
  destruct e;
    try (destruct (shutdown env) as [tr3 code]; exact Hsd);
    rewrite Hpo, Hpc; (split; [lia|]); (split; [lia|]);
    (split; [discriminate | intros [? _]; discriminate]).
Qed.

(** X16.  A failed startup.  When [NewReceiver] fails, the program exits with
    status 1 straight away: the producer is never started, no block is
    read, no shutdown step is taken, and a device that had been opened on
    the way is not closed. *)
Theorem failed_startup_leaves_device_open
    flags encoder env (st : RunState FS) its :
  version flags = false ->
  (HandleFlags flags (meterID st)).2 = true ->
  (NewReceiver flags env).2 = None ->
  let '(tr, code) := main flags encoder env st its in
  code = Some 1
  /\ tr = (HandleFlags flags (meterID st)).1 ++ (NewReceiver flags env).1
  /\ ~ In EvReadAsync tr /\ reads tr = 0%nat
  /\ existsb shutdownEvent tr = false
  /\ (forall cfg, newParser env = inr cfg ->
      opens tr = 1%nat /\ closes tr = 0%nat).
Proof.
  intros Hv Hh Hn. unfold main. rewrite Hv.
  pose proof (NewReceiver_quiet uniqueFilter meterIDFilter meterTypeFilter
                flags env) as Hq.
  pose proof (NewReceiver_device flags env) as HN.
  unfold HandleFlags in *. destruct (_ && _); [discriminate Hh|].
  cbn [negb fst].
  destruct (NewReceiver flags env) as [tr1 r]. cbn [fst snd] in *. subst r.
  destruct HN as (Ho & Hc & Ha & Hr & _ & Hp).
  split; [reflexivity|]. split; [reflexivity|].
  split; [intros [?|?]; [discriminate | auto]|].
  split; [simpl; exact Hr|]. split.
  - simpl. clear -Hq. induction tr1 as [|e tr1 IH]; [reflexivity|].
    simpl in *. apply andb_prop in Hq as [He Hq].
    unfold quietEvent in He. apply negb_true_iff in He.
    rewrite He, IH by exact Hq. reflexivity.
  - intros cfg Hcfg. simpl. rewrite (Hp cfg Hcfg), Hc. auto.
Qed.
End MainMore.

(** ** Further worked instances *)

Lemma NewReceiver_success_witness :
  newParser exStartAll = inr exCfg
  /\ [MeterIDFilter; UniqueFilter]
     = flat_map (filterOf UniqueFilter MeterIDFilter MeterTypeFilter)
         (visited exStartAll)
  /\ [EvNewParser; EvOpen; EvSetCenterFreq 912600155;
      EvSetSampleRate 2359296; EvSetTunerGainMode true; EvResetBuffer]
     = [EvNewParser; EvOpen; EvSetCenterFreq (CenterFreq exCfg);
        EvSetSampleRate (SampleRate exCfg);
        EvSetTunerGainMode (existsb isGainFlag (visited exStartAll))]
       ++ (if quiet (exFlags true) then [] else [EvParserLog])
       ++ [EvResetBuffer].
Proof.
  apply (NewReceiver_success UniqueFilter MeterIDFilter MeterTypeFilter
           (exFlags true) exStartAll).
  reflexivity.
Defined.


Lemma no_time_limit_never_expires_witness :
  let '(tr, _, e) :=
    Run (exFlags false) exCfg [MeterIDFilter] exPlain exState
      [exTimed; exInterrupt] in
  e <> TimeLimitReached /\ existsb isTimeLimitPrint tr = false.
Proof.
  apply (no_time_limit_never_expires (exFlags false) exCfg [MeterIDFilter]
           exPlain exState [exTimed; exInterrupt]).
  reflexivity.
Defined.

Lemma not_single_never_completes_witness :
  let '(_, st', e) :=
    Run (exFlags false) exCfg [MeterIDFilter] exPlain exState exTurns in
  e <> Completed /\ meterID st' = meterID exState.
Proof.
  apply (not_single_never_completes (exFlags false) exCfg [MeterIDFilter]
           exPlain exState exTurns).
  reflexivity.
Defined.

Lemma null_device_never_written_witness :
  let '(tr, st', _) :=
    Run exNoArchive exCfg [MeterIDFilter] exPlain exState exTurns in
  archiveWrites tr = [] /\ samplePos st' = samplePos exState.
Proof.
  apply (null_device_never_written exNoArchive exCfg [MeterIDFilter]
           exPlain exState exTurns).
  reflexivity.
Defined.

Lemma offsets_follow_the_archive_witness :
  let '(tr, st', e) :=
    Run (exFlags false) exCfg [MeterIDFilter] exPlain exState exRepeats in
  posAfter (samplePos exState) tr = samplePos st' /\ samplePos st' = 16.
Proof.
  pose proof (offsets_follow_the_archive (exFlags false) exCfg
                [MeterIDFilter] exPlain exState exRepeats) as H.
  destruct (Run _ _ _ _ _ _) as [[tr st'] e] eqn:E.
  vm_compute in E. injection E as <- <- <-.
  destruct H as (_ & _ & H). split; [apply H; discriminate | reflexivity].
Defined.

Lemma fatal_is_final_witness :
  let '(tr, _, e) :=
    Run (exFlags false) exCfg [MeterIDFilter] exPlain exState
      [exBlock [exPkt 42]; exShortRead] in
  e = Died
  /\ exists pre s, tr = pre ++ [EvFatal s] /\ existsb isFatal pre = false.
Proof.
  pose proof (fatal_is_final (exFlags false) exCfg [MeterIDFilter] exPlain
                exState [exBlock [exPkt 42]; exShortRead]) as H.
  destruct (Run _ _ _ _ _ _) as [[tr st'] e] eqn:E.
  vm_compute in E. injection E as <- <- <-.
  split; [reflexivity|].
  destruct H as (H & _). destruct (H eq_refl) as (pre & s & H1 & H2 & _).
  exists pre, s. split; assumption.
Defined.

Lemma failed_turn_writes_nothing_witness :
  let '(tr, st', c) :=
    receive (exFlags false) exCfg [MeterIDFilter] exPlain exState
      (exBlock [exPkt 42; exBadEncode 42]) in
  c = Abort /\ length (logged tr) = 2%nat
  /\ archiveWrites tr = [] /\ samplePos st' = samplePos exState.
Proof.
  pose proof (failed_turn_writes_nothing (exFlags false) exCfg
                [MeterIDFilter] exPlain exState
                (exBlock [exPkt 42; exBadEncode 42]) eq_refl) as H.
  destruct (receive _ _ _ _ _ _) as [[tr st'] c] eqn:E.
  vm_compute in E. injection E as <- <- <-.
  destruct (H eq_refl) as [H1 H2].
  split; [reflexivity|]. split; [reflexivity|]. split; assumption.
Defined.

Lemma single_without_ids_is_one_shot_witness :
  let '(tr, st', e) :=
    Run (exFlags true) exCfg [UniqueFilter] exPlain exNoIds exTurns in
  e = Completed /\ length (logged tr) = 1%nat /\ meterID st' = ∅.
Proof.
  pose proof (single_without_ids_is_one_shot (exFlags true) exCfg
                [UniqueFilter] exPlain exNoIds exTurns eq_refl eq_refl) as H.
  destruct (Run _ _ _ _ _ _) as [[tr st'] e] eqn:E.
  vm_compute in E. injection E as <- <- <-.
  destruct H as (H1 & _ & H3 & _).
  split; [reflexivity|]. split; [apply H3; reflexivity | exact H1].
Defined.

Lemma each_identifier_logged_once_witness :
  let '(tr, st', e) :=
    Run (exFlags true) exCfg [StrictIDFilter] exPlain exTwoIds exRepeats in
  loggedIDs tr = [42%N; 43%N] /\ NoDup (loggedIDs tr) /\ e = Completed
  /\ meterID st' !! 42%N = None /\ meterID st' !! 43%N = None.
Proof.
  assert (Hchk : forall fs ids m fs',
            Match [StrictIDFilter] fs ids m = (true, fs') ->
            is_Some (ids !! MeterID m)).
  { intros fs ids m fs' H. simpl in H.
    destruct (bool_decide (is_Some (ids !! MeterID m))) eqn:Hb;
      [|discriminate H].
    apply bool_decide_eq_true in Hb. exact Hb. }
  pose proof (each_identifier_logged_once (exFlags true) exCfg
                [StrictIDFilter] exPlain Hchk exTwoIds exRepeats eq_refl)
    as H.
  destruct (Run _ _ _ _ _ _) as [[tr st'] e] eqn:E.
  vm_compute in E. injection E as <- <- <-.
  destruct H as (H1 & _ & H3).
  split; [reflexivity|]. split; [exact H1|]. split; [reflexivity|].
  split; rewrite (H3 ltac:(discriminate)); reflexivity.
Defined.

Lemma failed_startup_leaves_device_open_witness :
  let '(tr, code) :=
    main UniqueFilter MeterIDFilter MeterTypeFilter "" ""
      (exFlags false) exPlain exBadParser exState exTurns in
  code = Some 1 /\ reads tr = 0%nat /\ existsb shutdownEvent tr = false.
Proof.
  pose proof (failed_startup_leaves_device_open UniqueFilter MeterIDFilter
                MeterTypeFilter "" "" (exFlags false) exPlain exBadParser
                exState exTurns eq_refl eq_refl eq_refl) as H.
  destruct (main _ _ _ _ _ _ _ _ _ _) as [tr code].
  destruct H as (H1 & _ & _ & H2 & H3 & _). auto.
Defined.

Lemma stop_seen_before_read_witness :
  let '(tr, st', e) :=
    loop (exFlags false) exCfg [MeterIDFilter] exPlain exState
      [exBlock [exPkt 43]; exInterrupt; exBlock [exPkt 42]] in
  reads tr = 1%nat /\ st' = exState /\ e = Interrupted.
Proof.
  apply (stop_seen_before_read (exFlags false) exCfg [MeterIDFilter] exPlain
           [exBlock [exPkt 43]; exInterrupt; exBlock [exPkt 42]]
           exState 1 exState exInterrupt);
    [reflexivity | reflexivity | discriminate].
Defined.
